(** * Mini 2048: a shallow embedding of [src/App.tsx]

    The game logic of the React component is embedded function by function:
    the grid rotator [rotateMapCounterClockwise], the row collapser
    [moveRowLeft], the move engine [moveMapIn2048Rule], the tile spawner
    [addRandomTile], the predicate [checkGameOver] and the two event handlers
    [handleKey] and [handleUndo] of [App].

    Conventions of the embedding.
    - A [Cell] is [number | null] ([types/statetypes.ts]).  Tiles are the
      integers the game produces (2, 4 and their doublings), so a number is
      a [Z]; [null] is [None].
    - JavaScript exceptions are values of [Js.outcome]: [Js.Throw e].  Reading
      past the end of a row gives [undefined], which is not a [Cell]; the
      embedding reports that read as [Js.IllTyped] and stops there.
    - [Math.random()] is an oracle [random : nat -> Q]; [random k] is the
      value of the k-th call made since the program started, and every
      function that draws threads the number of calls made so far. *)

From Stdlib Require Import List ZArith QArith Qround Bool Arith Lia Sorted.
Import ListNotations.

Close Scope Q_scope.
Set Implicit Arguments.

(* ================================================================= *)
(** ** JavaScript outcomes *)

Module Js.

Inductive Error : Type :=
| TypeError      (* a property read or a destructuring of [undefined] *)
| MapIsNotNByM.  (* [new Error("Map is not N by M")] *)

Inductive outcome (A : Type) : Type :=
| Ok (a : A)
| Throw (e : Error)
| IllTyped.

Arguments Ok {A} a.
Arguments Throw {A} e.
Arguments IllTyped {A}.

Definition bind {A B} (r : outcome A) (k : A -> outcome B) : outcome B :=
  match r with
  | Ok a => k a
  | Throw e => Throw e
  | IllTyped => IllTyped
  end.

(** [raises r]: the computation ended in an exception. *)
Definition raises {A} (r : outcome A) : Prop := exists e, r = Throw e.

Fixpoint mapM {A B} (f : A -> outcome B) (l : list A) : outcome (list B) :=
  match l with
  | [] => Ok []
  | a :: t =>
      bind (f a) (fun b => bind (mapM f t) (fun bs => Ok (b :: bs)))
  end.

(** [Array.from({ length: n }, (_, i) => f i)] *)
Definition arrayFrom {A} (n : nat) (f : nat -> outcome A) : outcome (list A) :=
  mapM f (seq 0 n).

(** Pairs every element with its index, as the callbacks of [map],
    [forEach] and [some] receive them. *)
Fixpoint entriesFrom {A} (k : nat) (l : list A) : list (nat * A) :=
  match l with
  | [] => []
  | a :: t => (k, a) :: entriesFrom (S k) t
  end.

Definition entries {A} (l : list A) : list (nat * A) := entriesFrom 0 l.

(** [l.map((a, i) => f a i)] *)
Definition mapi {A B} (f : A -> nat -> B) (l : list A) : list B :=
  map (fun p => f (snd p) (fst p)) (entries l).

(** [l.some((a, i) => f a i)] *)
Definition somei {A} (f : A -> nat -> bool) (l : list A) : bool :=
  existsb (fun p => f (snd p) (fst p)) (entries l).

End Js.

Import Js.

Notation "x <- e ;; k" := (Js.bind e (fun x => k))
  (at level 61, e at next level, right associativity).

(* ================================================================= *)
(** ** Data model ([types/statetypes.ts]) *)

Abbreviation Cell := (option Z) (only parsing).
Abbreviation Row := (list Cell) (only parsing).
Abbreviation Map2048 := (list Row) (only parsing).

Inductive Direction : Type := up | left | right | down.

Inductive Degree : Type := D0 | D90 | D180 | D270.

Record MoveResult : Type := { result : Map2048; isMoved : bool }.

(** [a === b] on cells. *)
Definition strictEq (a b : Cell) : bool :=
  match a, b with
  | None, None => true
  | Some x, Some y => Z.eqb x y
  | _, _ => false
  end.

Definition defaultMap : Map2048 :=
  [ [None; None; None; None];
    [None; None; None; None];
    [None; None; None; None];
    [None; None; None; None] ].

Definition rotateDegreeMap (d : Direction) : Degree :=
  match d with up => D90 | right => D180 | down => D270 | left => D0 end.

Definition revertDegreeMap (d : Direction) : Degree :=
  match d with up => D270 | right => D180 | down => D90 | left => D0 end.

(* ================================================================= *)
(** ** Grid reads *)

(** [m[0].length]: throws when [m] has no row. *)
Definition firstRowLength (m : Map2048) : outcome nat :=
  match nth_error m 0 with
  | Some row => Ok (length row)
  | None => Throw TypeError
  end.

(** [m[r][c]] as a cell of the rotated grid. *)
Definition cellAt (m : Map2048) (r c : nat) : outcome Cell :=
  match nth_error m r with
  | None => Throw TypeError
  | Some row =>
      match nth_error row c with
      | Some x => Ok x
      | None => IllTyped
      end
  end.

(* ================================================================= *)
(** ** Validation and rotation *)

Definition validateMapIsNByM (m : Map2048) : outcome bool :=
  firstColumnCount <- firstRowLength m ;;
  Ok (forallb (fun row => length row =? firstColumnCount) m).

Definition rotateMapCounterClockwise (m : Map2048) (degree : Degree)
  : outcome Map2048 :=
  let rowLength := length m in
  columnLength <- firstRowLength m ;;
  match degree with
  | D0 => Ok m
  | D90 =>
      arrayFrom columnLength (fun columnIndex =>
        arrayFrom rowLength (fun rowIndex =>
          cellAt m rowIndex (columnLength - columnIndex - 1)))
  | D180 =>
      arrayFrom rowLength (fun rowIndex =>
        arrayFrom columnLength (fun columnIndex =>
          cellAt m (rowLength - rowIndex - 1) (columnLength - columnIndex - 1)))
  | D270 =>
      arrayFrom columnLength (fun columnIndex =>
        arrayFrom rowLength (fun rowIndex =>
          cellAt m (rowLength - rowIndex - 1) columnIndex))
  end.

(* ================================================================= *)
(** ** Row collapse *)

Record Acc : Type := { lastCell : Cell; accResult : list Cell }.

Record RowMove : Type := { rowResult : Row; rowIsMoved : bool }.

Definition initialAcc : Acc := {| lastCell := None; accResult := [] |}.

(** The callback of [row.reduce]. *)
Definition reducer (acc : Acc) (cell : Cell) : Acc :=
  match cell with
  | None => acc
  | Some v =>
      match lastCell acc with
      | None => {| lastCell := Some v; accResult := accResult acc |}
      | Some l =>
          if Z.eqb l v
          then {| lastCell := None; accResult := accResult acc ++ [Some (v * 2)%Z] |}
          else {| lastCell := Some v; accResult := accResult acc ++ [Some l] |}
      end
  end.

(** [result] after the optional [push] of the pending tile. *)
Definition emitted (reduced : Acc) : list Cell :=
  match lastCell reduced with
  | Some l => accResult reduced ++ [Some l]
  | None => accResult reduced
  end.

(** [Array(n).fill(null).map((_, i) => result[i] ?? null)] *)
Definition padRow (n : nat) (res : list Cell) : Row :=
  map (fun i => nth i res None) (seq 0 n).

Definition moveRowLeft (row : Row) : RowMove :=
  let reduced := fold_left reducer row initialAcc in
  let res := emitted reduced in
  let resultRow := padRow (length row) res in
  {| rowResult := resultRow;
     rowIsMoved :=
       somei (fun cell i => negb (strictEq cell (nth i resultRow None))) row |}.

(** [true] exactly when [reducer acc cell] takes the merging branch. *)
Definition merges (acc : Acc) (cell : Cell) : bool :=
  match cell, lastCell acc with
  | Some v, Some l => Z.eqb l v
  | _, _ => false
  end.

(** Number of merges the reduce performs from [acc] on. *)
Fixpoint mergeCountFrom (acc : Acc) (row : Row) : nat :=
  match row with
  | [] => 0
  | cell :: t =>
      (if merges acc cell then 1 else 0) + mergeCountFrom (reducer acc cell) t
  end.

Definition mergeCount (row : Row) : nat := mergeCountFrom initialAcc row.

(* ================================================================= *)
(** ** Move engine *)

Definition moveLeft (m : Map2048) : MoveResult :=
  let movedRows := map moveRowLeft m in
  {| result := map rowResult movedRows;
     isMoved := existsb rowIsMoved movedRows |}.

Definition moveMapIn2048Rule (m : Map2048) (direction : Direction)
  : outcome MoveResult :=
  valid <- validateMapIsNByM m ;;
  if negb valid then Throw MapIsNotNByM
  else
    rotatedMap <- rotateMapCounterClockwise m (rotateDegreeMap direction) ;;
    let moved := moveLeft rotatedMap in
    back <- rotateMapCounterClockwise (result moved) (revertDegreeMap direction) ;;
    Ok {| result := back; isMoved := isMoved moved |}.

(* ================================================================= *)
(** ** Tile spawner *)

Definition Qltb (x y : Q) : bool := negb (Qle_bool y x).

(** [l[k]] for a JavaScript number [k]: [None] stands for [undefined]. *)
Definition at_ {A} (l : list A) (k : Z) : option A :=
  if (k <? 0)%Z then None else nth_error l (Z.to_nat k).

(** The coordinates pushed by the two nested [forEach], in push order. *)
Definition emptyCells (m : Map2048) : list (nat * nat) :=
  flat_map (fun p =>
    flat_map (fun q =>
      match snd q with
      | None => [(fst p, fst q)]
      | Some _ => []
      end) (entries (snd p))) (entries m).

(** [newMap] of [addRandomTile]: the grid with [value] written at [(i, j)]. *)
Definition placeTile (m : Map2048) (i j : nat) (value : Z) : Map2048 :=
  mapi (fun row r =>
    mapi (fun cell c =>
      if (r =? i) && (c =? j) then Some value else cell) row) m.

Section Random.

Variable random : nat -> Q.

(** [Math.floor(Math.random() * max)], as the [calls]-th draw. *)
Definition getRandomInt (max : nat) (calls : nat) : Z * nat :=
  (Qfloor (random calls * inject_Z (Z.of_nat max))%Q, S calls).

(** Returns the outcome together with the number of draws made so far:
    a draw made before an exception stays made. *)
Definition addRandomTile (calls : nat) (m : Map2048)
  : outcome Map2048 * nat :=
  let empty := emptyCells m in
  if length empty =? 0 then (Ok m, calls)
  else
    let (k, calls1) := getRandomInt (length empty) calls in
    match at_ empty k with
    | None => (Throw TypeError, calls1)
    | Some (i, j) =>
        let value := if Qltb (random calls1) (9 # 10)%Q then 2%Z else 4%Z in
        (Ok (placeTile m i j value), S calls1)
    end.

End Random.

(* ================================================================= *)
(** ** Game over *)

(** [m.flat().includes(128)] *)
Definition checkGameOver (m : Map2048) : bool :=
  existsb (fun cell => strictEq cell (Some 128%Z)) (concat m).

(* ================================================================= *)
(** ** The component [App] *)

Module App.

(** The two [useState] cells, and the position in the stream of
    [Math.random()] draws. *)
Record State : Type :=
  { map : Map2048; undoHistory : list Map2048; randomCalls : nat }.

Definition isGameOver (st : State) : bool := checkGameOver (map st).

Inductive Key : Type :=
| ArrowUp | ArrowRight | ArrowDown | ArrowLeft | OtherKey.

(** [dirMap[e.key]]; [None] for the keys the first line of [handleKey]
    filters out. *)
Definition dirMap (key : Key) : option Direction :=
  match key with
  | ArrowUp => Some up
  | ArrowDown => Some down
  | ArrowLeft => Some left
  | ArrowRight => Some right
  | OtherKey => None
  end.

Definition keyOf (d : Direction) : Key :=
  match d with
  | up => ArrowUp
  | down => ArrowDown
  | left => ArrowLeft
  | right => ArrowRight
  end.

Section Handlers.

Variable random : nat -> Q.

(** The state after the handler ran, and how the handler ended. *)
Definition handleKey (st : State) (key : Key) : State * outcome unit :=
  match dirMap key with
  | None => (st, Ok tt)
  | Some direction =>
      if isGameOver st then (st, Ok tt)
      else
        match moveMapIn2048Rule (map st) direction with
        | Throw e => (st, Throw e)
        | IllTyped => (st, IllTyped)
        | Ok moved =>
            if isMoved moved then
              let h := undoHistory st ++ [map st] in
              match addRandomTile random (randomCalls st) (result moved) with
              | (Ok newMap, calls) =>
                  ({| map := newMap; undoHistory := h; randomCalls := calls |},
                   Ok tt)
              | (Throw e, calls) =>
                  ({| map := map st; undoHistory := h; randomCalls := calls |},
                   Throw e)
              | (IllTyped, calls) =>
                  ({| map := map st; undoHistory := h; randomCalls := calls |},
                   IllTyped)
              end
            else (st, Ok tt)
        end
  end.

(** [applyMove(direction)] of the specification: the arrow key of
    [direction] pressed. *)
Definition applyMove (st : State) (direction : Direction) : State :=
  fst (handleKey st (keyOf direction)).

(** The initializer of the first [useState]:
    [addRandomTile(addRandomTile(defaultMap.map(row => [...row])))], run when
    [calls] draws have been made.  The inner call comes first; the outer one
    is not reached when it throws. *)
Definition initialMap (calls : nat) : outcome Map2048 * nat :=
  match addRandomTile random calls (List.map (fun row => row) defaultMap) with
  | (Ok first, calls1) => addRandomTile random calls1 first
  | (Throw e, calls1) => (Throw e, calls1)
  | (IllTyped, calls1) => (IllTyped, calls1)
  end.

(** The state of the first render: the initial map and an empty history. *)
Definition initialState (calls : nat) : outcome State :=
  match initialMap calls with
  | (Ok m, calls1) =>
      Ok {| map := m; undoHistory := []; randomCalls := calls1 |}
  | (Throw e, _) => Throw e
  | (IllTyped, _) => IllTyped
  end.

End Handlers.

Definition handleUndo (st : State) : State :=
  let h := undoHistory st in
  if length h =? 0 then st
  else
    match nth_error h (length h - 1) with
    | Some previous =>
        {| map := previous;
           undoHistory := firstn (length h - 1) h;
           randomCalls := randomCalls st |}
    | None => st
    end.

End App.

(* ================================================================= *)
(** * Properties *)

(** ** Indexed traversals *)

Section Indexed.

Context {A B : Type}.

Lemma nth_error_entriesFrom (l : list A) : forall k n,
  nth_error (entriesFrom k l) n = option_map (fun a => (k + n, a)) (nth_error l n).
Proof.
  induction l as [|a t IH]; intros k n.
  - destruct n; reflexivity.
  - destruct n as [|n]; simpl.
    + now rewrite Nat.add_0_r.
    + rewrite IH. now replace (S k + n) with (k + S n) by lia.
Qed.

Lemma length_entriesFrom (l : list A) : forall k,
  length (entriesFrom k l) = length l.
Proof. induction l; intros k; simpl; auto. Qed.

Lemma in_entries (l : list A) (i : nat) (a : A) :
  In (i, a) (entries l) <-> nth_error l i = Some a.
Proof.
  unfold entries; split.
  - intros H. apply In_nth_error in H as [n H].
    rewrite nth_error_entriesFrom in H.
    destruct (nth_error l n) eqn:E; simpl in H; [|discriminate].
    now inversion H; subst.
  - intros H. apply nth_error_In with (n := i).
    now rewrite nth_error_entriesFrom, H.
Qed.

Lemma length_mapi (f : A -> nat -> B) (l : list A) :
  length (mapi f l) = length l.
Proof. unfold mapi, entries. now rewrite length_map, length_entriesFrom. Qed.

Lemma nth_error_mapi (f : A -> nat -> B) (l : list A) (n : nat) :
  nth_error (mapi f l) n = option_map (fun a => f a n) (nth_error l n).
Proof.
  unfold mapi, entries.
  rewrite nth_error_map, nth_error_entriesFrom.
  now destruct (nth_error l n).
Qed.

Lemma somei_true (f : A -> nat -> bool) (l : list A) :
  somei f l = true <-> exists i a, nth_error l i = Some a /\ f a i = true.
Proof.
  unfold somei. rewrite existsb_exists. split.
  - intros [[i a] [Hin Hf]]. exists i, a. split; [now apply in_entries | exact Hf].
  - intros (i & a & Hn & Hf). exists (i, a). split; [now apply in_entries | exact Hf].
Qed.

Lemma mapM_total (f : A -> outcome B) (g : A -> B) (l : list A) :
  (forall a, In a l -> f a = Ok (g a)) -> mapM f l = Ok (List.map g l).
Proof.
  induction l as [|a t IH]; intros H; simpl; [reflexivity|].
  rewrite (H a (or_introl eq_refl)); simpl.
  rewrite IH by (intros; apply H; now right). reflexivity.
Qed.

End Indexed.

Lemma arrayFrom_total {B} (n : nat) (f : nat -> outcome B) (g : nat -> B) :
  (forall i, i < n -> f i = Ok (g i)) -> arrayFrom n f = Ok (List.map g (seq 0 n)).
Proof.
  intros H. apply mapM_total. intros i Hi. apply in_seq in Hi. apply H; lia.
Qed.

(** ** Shapes and cell-wise equality *)

(** [shape R C m]: [m] has [R] rows, each of [C] cells. *)
Definition shape (R C : nat) (m : Map2048) : Prop :=
  length m = R /\ forall row, In row m -> length row = C.

(** The rectangularity invariant, as the specification words it: no row's
    length differs from the first row's. *)
Definition rectangular (m : Map2048) : Prop :=
  forall row, In row m -> length row = length (hd [] m).

(** The grid holds at least one cell: it has a row, and a column. *)
Definition nonEmpty (m : Map2048) : Prop := concat m <> [].

(** The cell at row [r], column [c]; [None] outside the grid. *)
Definition cell (m : Map2048) (r c : nat) : option Cell :=
  match nth_error m r with
  | Some row => nth_error row c
  | None => None
  end.

Definition get (m : Map2048) (r c : nat) : Cell := nth c (nth r m []) None.

Definition tabulate (R C : nat) (f : nat -> nat -> Cell) : Map2048 :=
  List.map (fun r => List.map (fun c => f r c) (seq 0 C)) (seq 0 R).

Lemma shape_tabulate R C f : shape R C (tabulate R C f).
Proof.
  split.
  - unfold tabulate. now rewrite length_map, length_seq.
  - intros row Hin. unfold tabulate in Hin. apply in_map_iff in Hin as (r & <- & _).
    now rewrite length_map, length_seq.
Qed.

Lemma nth_tabulated {B} (g : nat -> B) (n i : nat) (d : B) :
  i < n -> nth i (List.map g (seq 0 n)) d = g i.
Proof.
  intros Hi. apply nth_error_nth.
  rewrite nth_error_map, nth_error_seq.
  apply Nat.ltb_lt in Hi. now rewrite Hi.
Qed.

Lemma get_tabulate R C f r c :
  r < R -> c < C -> get (tabulate R C f) r c = f r c.
Proof.
  intros Hr Hc. unfold get, tabulate.
  rewrite nth_tabulated by assumption.
  now rewrite nth_tabulated.
Qed.

Lemma shape_row R C m r :
  shape R C m -> r < R -> length (nth r m []) = C.
Proof.
  intros [HR HC] Hr. apply HC, nth_In. lia.
Qed.

Lemma cell_get R C m r c :
  shape R C m -> r < R -> c < C -> cell m r c = Some (get m r c).
Proof.
  intros Hs Hr Hc. unfold cell, get.
  pose proof (shape_row Hs Hr) as Hlen. destruct Hs as [HR _].
  rewrite (nth_error_nth' m []) by lia. cbv iota beta.
  apply nth_error_nth'. lia.
Qed.

Lemma cellAt_get R C m r c :
  shape R C m -> r < R -> c < C -> cellAt m r c = Ok (get m r c).
Proof.
  intros Hs Hr Hc. pose proof (cell_get Hs Hr Hc) as H.
  unfold cell in H. unfold cellAt.
  destruct (nth_error m r); [|discriminate]. now rewrite H.
Qed.

Lemma grid_ext R C m m' :
  shape R C m -> shape R C m' ->
  (forall r c, r < R -> c < C -> get m r c = get m' r c) -> m = m'.
Proof.
  intros Hs Hs' H.
  apply (nth_ext m m' [] []).
  - destruct Hs, Hs'. congruence.
  - intros r Hr. destruct Hs as [HR HC]. rewrite HR in Hr.
    assert (Hs : shape R C m) by now split.
    apply (nth_ext _ _ None None).
    + transitivity C; [exact (shape_row Hs Hr) | symmetry; exact (shape_row Hs' Hr)].
    + intros c Hc. apply H; [exact Hr|].
      pose proof (shape_row Hs Hr) as Hlen. lia.
Qed.

Lemma firstRowLength_shape R C m :
  shape R C m -> 0 < R -> firstRowLength m = Ok C.
Proof.
  intros [HR HC] Hpos. unfold firstRowLength.
  destruct m as [|row t]; simpl in *; [lia|].
  now rewrite (HC row (or_introl eq_refl)).
Qed.

(** ** Validation *)

Lemma validate_value (row : Row) (t : Map2048) :
  validateMapIsNByM (row :: t)
  = Ok (forallb (fun r => length r =? length row) (row :: t)).
Proof. reflexivity. Qed.

Lemma validate_shape (m : Map2048) :
  validateMapIsNByM m = Ok true <-> exists R C, 0 < R /\ shape R C m.
Proof.
  split.
  - destruct m as [|row t]; [discriminate|].
    rewrite validate_value. intros H.
    assert (Hall : forall r, In r (row :: t) -> (length r =? length row) = true)
      by (apply forallb_forall; congruence).
    exists (length (row :: t)), (length row). split; [simpl; lia|].
    split; [reflexivity|]. intros r Hr. now apply Nat.eqb_eq, Hall.
  - intros (R & C & Hpos & HR & HC).
    destruct m as [|row t]; [simpl in HR; lia|].
    rewrite validate_value. f_equal. apply forallb_forall. intros r Hr.
    apply Nat.eqb_eq. rewrite (HC r Hr). symmetry. apply HC. now left.
Qed.

Lemma validate_rectangular (m : Map2048) :
  m <> [] -> validateMapIsNByM m = Ok true <-> rectangular m.
Proof.
  intros Hne. destruct m as [|row t]; [congruence|].
  rewrite validate_value. unfold rectangular. simpl hd. split.
  - intros H.
    assert (Hall : forall r, In r (row :: t) -> (length r =? length row) = true)
      by (apply forallb_forall; congruence).
    intros r Hr. now apply Nat.eqb_eq, Hall.
  - intros H. f_equal. apply forallb_forall. intros r Hr.
    now apply Nat.eqb_eq, H.
Qed.

Lemma validate_not_rectangular (m : Map2048) :
  m <> [] -> validateMapIsNByM m = Ok false <-> ~ rectangular m.
Proof.
  intros Hne. pose proof (validate_rectangular Hne) as Hrect.
  destruct m as [|row t]; [congruence|].
  rewrite validate_value in *.
  destruct (forallb _ _); split; intros H; try discriminate; try reflexivity.
  - exfalso. apply H, Hrect. reflexivity.
  - intros Hr. apply Hrect in Hr. discriminate.
Qed.

Lemma nonEmpty_rows (m : Map2048) : nonEmpty m -> m <> [].
Proof. intros H ->. now apply H. Qed.

Lemma nonEmpty_columns R C (m : Map2048) :
  shape R C m -> nonEmpty m -> 0 < C.
Proof.
  intros [_ HC] Hne. destruct C as [|C]; [|lia].
  exfalso. apply Hne. clear Hne.
  induction m as [|row t IH]; [reflexivity|]. simpl.
  rewrite IH by (intros r Hr; apply HC; now right).
  rewrite app_nil_r. apply length_zero_iff_nil, HC. now left.
Qed.

(** ** Rotation on rectangular grids *)

(** What the rotator builds from an [R] by [C] grid. *)
Definition rotated (R C : nat) (m : Map2048) (degree : Degree) : Map2048 :=
  match degree with
  | D0 => m
  | D90 => tabulate C R (fun c r => get m r (C - c - 1))
  | D180 => tabulate R C (fun r c => get m (R - r - 1) (C - c - 1))
  | D270 => tabulate C R (fun c r => get m (R - r - 1) c)
  end.

Definition rotatedRows (R C : nat) (degree : Degree) : nat :=
  match degree with D0 | D180 => R | D90 | D270 => C end.

Definition rotatedColumns (R C : nat) (degree : Degree) : nat :=
  match degree with D0 | D180 => C | D90 | D270 => R end.

Lemma rotate_total R C m degree :
  shape R C m -> 0 < R ->
  rotateMapCounterClockwise m degree = Ok (rotated R C m degree).
Proof.
  intros Hs Hpos. unfold rotateMapCounterClockwise.
  rewrite (firstRowLength_shape Hs Hpos). simpl bind.
  assert (HR : length m = R) by apply Hs. rewrite HR.
  destruct degree; simpl rotated; [reflexivity| | |];
    unfold tabulate;
    (apply arrayFrom_total; intros i Hi;
     apply arrayFrom_total; intros j Hj;
     apply (cellAt_get Hs); lia).
Qed.

Lemma shape_rotated R C m degree :
  shape R C m ->
  shape (rotatedRows R C degree) (rotatedColumns R C degree) (rotated R C m degree).
Proof.
  intros Hs. destruct degree; simpl; auto using shape_tabulate.
Qed.

(** Four quarter turns in a row, each fed the grid the previous one built. *)
Definition fourQuarterTurns (m : Map2048) : outcome Map2048 :=
  m1 <- rotateMapCounterClockwise m D90 ;;
  m2 <- rotateMapCounterClockwise m1 D90 ;;
  m3 <- rotateMapCounterClockwise m2 D90 ;;
  rotateMapCounterClockwise m3 D90.

Lemma fourQuarterTurns_shape R C m :
  shape R C m -> 0 < R -> 0 < C -> fourQuarterTurns m = Ok m.
Proof.
  intros Hs HR HC. unfold fourQuarterTurns.
  rewrite (rotate_total D90 Hs HR). simpl bind.
  pose proof (shape_rotated D90 Hs) as Hs1. simpl in Hs1.
  rewrite (rotate_total D90 Hs1 HC). simpl bind.
  pose proof (shape_rotated D90 Hs1) as Hs2. simpl in Hs2.
  rewrite (rotate_total D90 Hs2 HR). simpl bind.
  pose proof (shape_rotated D90 Hs2) as Hs3. simpl in Hs3.
  rewrite (rotate_total D90 Hs3 HC).
  pose proof (shape_rotated D90 Hs3) as Hs4. simpl in Hs4.
  f_equal. apply (grid_ext Hs4 Hs). intros r c Hr Hc. simpl.
  rewrite get_tabulate by lia.
  rewrite get_tabulate by lia.
  rewrite get_tabulate by lia.
  rewrite get_tabulate by lia.
  f_equal; lia.
Qed.

(** C3. A rectangular grid with at least one row and one column, turned by
    90 degrees four times in a row, is the grid it started as: every one of
    the four calls returns, and the last returns the original grid. *)
Theorem rotate_90_four_times (m : Map2048) :
  validateMapIsNByM m = Ok true -> nonEmpty m ->
  fourQuarterTurns m = Ok m.
Proof.
  intros Hv Hne. apply validate_shape in Hv as (R & C & HR & Hs).
  apply (fourQuarterTurns_shape Hs HR). exact (nonEmpty_columns Hs Hne).
Qed.

Lemma rotate_90_four_times_witness :
  fourQuarterTurns [[Some 2; None; Some 4]; [None; Some 8; Some 16]]%Z
  = Ok [[Some 2; None; Some 4]; [None; Some 8; Some 16]]%Z.
Proof.
  apply rotate_90_four_times.
  - reflexivity.
  - discriminate.
Defined.

(** Outside the data model: a grid whose rows have no cell loses all its
    rows in a quarter turn, and the next turn reads the first row of an
    empty array. *)
Lemma rotate_without_columns :
  rotateMapCounterClockwise [[]] D90 = Ok []
  /\ fourQuarterTurns [[]] = Throw TypeError.
Proof. split; reflexivity. Qed.

(** ** The move engine on rectangular grids *)

Lemma length_padRow n res : length (padRow n res) = n.
Proof. unfold padRow. now rewrite length_map, length_seq. Qed.

Lemma length_moveRowLeft row : length (rowResult (moveRowLeft row)) = length row.
Proof. apply length_padRow. Qed.

Lemma shape_moveLeft R C m : shape R C m -> shape R C (result (moveLeft m)).
Proof.
  intros [HR HC]. split; simpl.
  - now rewrite !length_map.
  - intros row Hin. rewrite map_map in Hin.
    apply in_map_iff in Hin as (row0 & <- & Hin0).
    rewrite length_moveRowLeft. now apply HC.
Qed.

Lemma rotatedRows_pos R C degree : 0 < R -> 0 < C -> 0 < rotatedRows R C degree.
Proof. destruct degree; simpl; lia. Qed.

Lemma move_total R C m direction :
  shape R C m -> 0 < R -> 0 < C ->
  exists back,
    moveMapIn2048Rule m direction
    = Ok {| result := back;
            isMoved := isMoved (moveLeft (rotated R C m (rotateDegreeMap direction))) |}
    /\ shape R C back.
Proof.
  intros Hs HR HC. unfold moveMapIn2048Rule.
  assert (Hv : validateMapIsNByM m = Ok true)
    by (apply validate_shape; now exists R, C).
  rewrite Hv. cbv beta iota zeta delta [bind negb].
  rewrite (rotate_total (rotateDegreeMap direction) Hs HR).
  cbv beta iota zeta delta [bind].
  set (fwd := rotated R C m (rotateDegreeMap direction)).
  pose proof (shape_moveLeft (shape_rotated (rotateDegreeMap direction) Hs)) as Hm.
  fold fwd in Hm.
  rewrite (rotate_total (revertDegreeMap direction) Hm
             (rotatedRows_pos (rotateDegreeMap direction) HR HC)).
  cbv beta iota zeta delta [bind]. eexists; split; [reflexivity|].
  pose proof (shape_rotated (revertDegreeMap direction) Hm) as Hb.
  destruct direction; exact Hb.
Qed.

Lemma move_not_rectangular m direction :
  m <> [] -> ~ rectangular m ->
  moveMapIn2048Rule m direction = Throw MapIsNotNByM.
Proof.
  intros Hne Hnr. unfold moveMapIn2048Rule.
  apply (validate_not_rectangular Hne) in Hnr. now rewrite Hnr.
Qed.

Lemma move_rectangular_total m direction :
  nonEmpty m -> rectangular m ->
  exists moved, moveMapIn2048Rule m direction = Ok moved.
Proof.
  intros Hne Hr. apply (validate_rectangular (nonEmpty_rows Hne)) in Hr.
  apply validate_shape in Hr as (R & C & HR & Hs).
  destruct (move_total direction Hs HR (nonEmpty_columns Hs Hne)) as (back & Hmv & _).
  eexists; exact Hmv.
Qed.

(** The move engine never hands a read past the end of a row to its caller:
    validation comes first. *)
Lemma move_well_typed (m : Map2048) (direction : Direction) :
  moveMapIn2048Rule m direction <> IllTyped.
Proof.
  unfold moveMapIn2048Rule.
  destruct (validateMapIsNByM m) as [[|]| |] eqn:Hv;
    cbv beta iota zeta delta [bind negb]; try discriminate.
  - apply validate_shape in Hv as (R & C & HR & Hs).
    rewrite (rotate_total (rotateDegreeMap direction) Hs HR).
    cbv beta iota zeta delta [bind].
    pose proof (shape_moveLeft (shape_rotated (rotateDegreeMap direction) Hs)) as Hm.
    destruct (Nat.eq_dec (rotatedRows R C (rotateDegreeMap direction)) 0) as [E|E].
    + destruct Hm as [Hlen _]. rewrite E in Hlen.
      apply length_zero_iff_nil in Hlen. rewrite Hlen.
      destruct direction; discriminate.
    + rewrite (rotate_total (revertDegreeMap direction) Hm) by lia.
      discriminate.
  - unfold validateMapIsNByM in Hv. destruct m; discriminate.
Qed.

(** C4. On a grid that holds at least one cell, the move engine raises
    exactly when the grid is not rectangular, that is when some row's length
    differs from the first row's; on a rectangular one it returns a result. *)
Theorem move_raises_iff_not_rectangular (m : Map2048) (direction : Direction) :
  nonEmpty m ->
  (raises (moveMapIn2048Rule m direction) <-> ~ rectangular m)
  /\ (rectangular m -> exists moved, moveMapIn2048Rule m direction = Ok moved).
Proof.
  intros Hne. split; [split|].
  - intros [e He] Hr.
    destruct (move_rectangular_total direction Hne Hr) as [moved Hmv]. congruence.
  - intros Hnr. exists MapIsNotNByM.
    apply move_not_rectangular; [now apply nonEmpty_rows | exact Hnr].
  - now apply move_rectangular_total.
Qed.

Lemma move_raises_iff_not_rectangular_witness :
  (raises (moveMapIn2048Rule [[Some 2; Some 2]; [None]]%Z up)
   <-> ~ rectangular [[Some 2; Some 2]; [None]]%Z)
  /\ (rectangular [[Some 2; Some 2]; [None]]%Z ->
      exists moved, moveMapIn2048Rule [[Some 2; Some 2]; [None]]%Z up = Ok moved).
Proof.
  apply move_raises_iff_not_rectangular. discriminate.
Defined.

(** Outside the data model: on rows without cells a vertical move turns the
    grid into one without rows, and turning that back raises. *)
Lemma move_without_columns :
  moveMapIn2048Rule [[]] up = Throw TypeError
  /\ moveMapIn2048Rule [[]] left = Ok {| result := [[]]; isMoved := false |}.
Proof. split; reflexivity. Qed.

(** C10. The move engine keeps the shape: on an [R] by [C] grid with
    [R, C >= 1] it returns, for every direction, a grid of [R] rows of [C]
    cells each. *)
Theorem move_preserves_shape (R C : nat) (m : Map2048) (direction : Direction) :
  shape R C m -> 0 < R -> 0 < C ->
  exists moved,
    moveMapIn2048Rule m direction = Ok moved /\ shape R C (result moved).
Proof.
  intros Hs HR HC.
  destruct (move_total direction Hs HR HC) as (back & Hmv & Hb).
  eexists; split; [exact Hmv | exact Hb].
Qed.

Lemma move_preserves_shape_witness :
  exists moved,
    moveMapIn2048Rule [[Some 2; Some 2; None]; [None; Some 4; Some 4]]%Z down
    = Ok moved
    /\ shape 2 3 (result moved).
Proof.
  apply move_preserves_shape; [|lia|lia].
  split; [reflexivity|].
  intros row [<-|[<-|[]]]; reflexivity.
Defined.

(** ** The row collapser *)

(** The tiles of a row, left to right, without the empty cells. *)
Definition tiles (row : Row) : list Z :=
  flat_map (fun x => match x with Some v => [v] | None => [] end) row.

(** Left-to-right pairing: the head tile merges with its right neighbour
    when both are equal, and pairing resumes after the pair. *)
Fixpoint mergePairs (vs : list Z) : list Z :=
  match vs with
  | [] => []
  | v1 :: t =>
      match t with
      | [] => [v1]
      | v2 :: rest =>
          if Z.eqb v1 v2 then (v2 * 2)%Z :: mergePairs rest
          else v1 :: mergePairs t
      end
  end.

Fixpoint noAdjacentEqual (vs : list Z) : Prop :=
  match vs with
  | [] => True
  | v1 :: t =>
      match t with
      | [] => True
      | v2 :: _ => v1 <> v2 /\ noAdjacentEqual t
      end
  end.

(** The tile the reduce still holds back. *)
Definition pending (acc : Acc) : list Z :=
  match lastCell acc with Some l => [l] | None => [] end.

Lemma strictEq_eq (a b : Cell) : strictEq a b = true <-> a = b.
Proof.
  destruct a as [x|], b as [y|]; simpl; split; intros H;
    try discriminate; try reflexivity.
  - apply Z.eqb_eq in H. now subst.
  - inversion H. apply Z.eqb_refl.
Qed.

Lemma emitted_fold (row : Row) : forall acc,
  emitted (fold_left reducer row acc)
  = accResult acc ++ List.map Some (mergePairs (pending acc ++ tiles row)).
Proof.
  induction row as [|x t IH]; intros acc.
  - unfold emitted, pending. simpl. destruct (lastCell acc); simpl.
    + reflexivity.
    + now rewrite app_nil_r.
  - destruct x as [v|]; simpl fold_left; [|apply IH].
    rewrite IH. unfold reducer, pending.
    destruct (lastCell acc) as [l|]; simpl.
    + destruct (Z.eqb l v) eqn:E; simpl; now rewrite <- app_assoc.
    + reflexivity.
Qed.

Lemma rowResult_pairs (row : Row) :
  rowResult (moveRowLeft row)
  = padRow (length row) (List.map Some (mergePairs (tiles row))).
Proof.
  unfold moveRowLeft. simpl. now rewrite emitted_fold.
Qed.

Lemma length_mergePairs (vs : list Z) : length (mergePairs vs) <= length vs.
Proof.
  assert (H : forall n ws, length ws <= n -> length (mergePairs ws) <= length ws).
  { induction n as [|n IH]; intros ws Hn.
    - destruct ws; simpl in *; lia.
    - destruct ws as [|v1 [|v2 rest]]; simpl in *; try lia.
      destruct (Z.eqb v1 v2); simpl.
      + specialize (IH rest). lia.
      + specialize (IH (v2 :: rest)). simpl in IH. lia. }
  now apply (H (length vs)).
Qed.

Lemma length_tiles (row : Row) : length (tiles row) <= length row.
Proof.
  induction row as [|[v|] t IH]; simpl; lia.
Qed.

Lemma padRow_cons n x res : padRow (S n) (x :: res) = x :: padRow n res.
Proof.
  unfold padRow. simpl. f_equal. rewrite <- seq_shift, map_map. reflexivity.
Qed.

Lemma padRow_short n res :
  length res <= n -> padRow (S n) res = padRow n res ++ [None].
Proof.
  intros H. unfold padRow. rewrite seq_S, map_app. simpl.
  now rewrite nth_overflow.
Qed.

Lemma padRow_exact res : padRow (length res) res = res.
Proof.
  induction res as [|x t IH]; [reflexivity|].
  simpl length. now rewrite padRow_cons, IH.
Qed.

Lemma padRow_nil n : padRow n [] = repeat None n.
Proof.
  induction n as [|n IH]; [reflexivity|].
  rewrite padRow_short by (simpl; lia). rewrite IH.
  now rewrite <- repeat_cons.
Qed.

Lemma mergePairs_fixed (vs : list Z) : noAdjacentEqual vs -> mergePairs vs = vs.
Proof.
  induction vs as [|v1 t IH]; [reflexivity|].
  destruct t as [|v2 rest]; [reflexivity|].
  intros [Hne Hrest]. simpl.
  apply Z.eqb_neq in Hne. rewrite Hne. f_equal. now apply IH.
Qed.

Lemma tiles_full (vs : list Z) : tiles (List.map Some vs) = vs.
Proof. induction vs as [|v t IH]; simpl; congruence. Qed.

Lemma tiles_empty n : tiles (repeat None n) = [].
Proof. induction n; simpl; auto. Qed.

Lemma mergeCountFrom_bound (row : Row) : forall acc,
  2 * mergeCountFrom acc row <= length (pending acc) + length (tiles row).
Proof.
  induction row as [|x t IH]; intros acc; simpl; [lia|].
  destruct x as [v|]; unfold merges.
  - specialize (IH (reducer acc (Some v))). revert IH.
    unfold reducer, pending. destruct (lastCell acc) as [l|]; simpl.
    + destruct (Z.eqb l v); simpl; lia.
    + lia.
  - specialize (IH acc). simpl. lia.
Qed.

(** The flag compares the two rows position by position. *)
Lemma rowIsMoved_position (row : Row) :
  rowIsMoved (moveRowLeft row) = true
  <-> exists i, i < length row
             /\ nth_error (rowResult (moveRowLeft row)) i <> nth_error row i.
Proof.
  pose proof (length_moveRowLeft row) as Hlen.
  unfold moveRowLeft in *. simpl in *.
  set (res := padRow (length row) _) in *.
  rewrite somei_true. split.
  - intros (i & a & Hn & Hf). exists i.
    assert (Hi : i < length row) by (apply nth_error_Some; congruence).
    split; [exact Hi|].
    rewrite (nth_error_nth' res None) by lia. rewrite Hn.
    intros Heq. inversion Heq as [Heq']. rewrite Heq' in Hf.
    rewrite (proj2 (strictEq_eq a a) eq_refl) in Hf. discriminate.
  - intros (i & Hi & Hd).
    exists i, (nth i row None). split; [now apply nth_error_nth'|].
    rewrite (nth_error_nth' res None), (nth_error_nth' row None) in Hd by lia.
    destruct (strictEq (nth i row None) (nth i res None)) eqn:E; [|reflexivity].
    apply strictEq_eq in E. congruence.
Qed.

Lemma rowIsMoved_differs (row : Row) :
  rowIsMoved (moveRowLeft row) = true <-> rowResult (moveRowLeft row) <> row.
Proof.
  rewrite rowIsMoved_position. split.
  - intros (i & _ & Hd) Heq. now rewrite Heq in Hd.
  - intros Hne.
    destruct (rowIsMoved (moveRowLeft row)) eqn:E.
    + now apply rowIsMoved_position.
    + exfalso. apply Hne.
      apply (nth_ext _ _ None None); [apply length_moveRowLeft|].
      intros i Hi. rewrite length_moveRowLeft in Hi.
      destruct (strictEq (nth i (rowResult (moveRowLeft row)) None)
                  (nth i row None)) eqn:Hd; [now apply strictEq_eq|].
      assert (Hd' : nth i (rowResult (moveRowLeft row)) None <> nth i row None)
        by (intros Heq; apply strictEq_eq in Heq; congruence).
      assert (rowIsMoved (moveRowLeft row) = true); [|congruence].
      apply rowIsMoved_position. exists i. split; [exact Hi|].
      rewrite (nth_error_nth' _ None), (nth_error_nth' row None);
        [congruence | lia | rewrite length_moveRowLeft; lia].
Qed.

Lemma moveRowLeft_fixed (row : Row) :
  rowResult (moveRowLeft row) = row ->
  moveRowLeft row = {| rowResult := row; rowIsMoved := false |}.
Proof.
  intros Heq. destruct (moveRowLeft row) as [res moved] eqn:E.
  simpl in Heq. subst res. f_equal.
  destruct moved; [|reflexivity].
  exfalso. assert (H : rowIsMoved (moveRowLeft row) = true) by now rewrite E.
  apply rowIsMoved_differs in H. apply H. now rewrite E.
Qed.

Lemma moveRowLeft_pair_first (v : Z) (rest : Row) :
  rowResult (moveRowLeft (Some v :: Some v :: rest))
  = Some (v * 2)%Z :: rowResult (moveRowLeft rest) ++ [None].
Proof.
  rewrite !rowResult_pairs. simpl tiles. simpl mergePairs.
  rewrite Z.eqb_refl. simpl length. simpl List.map.
  rewrite padRow_cons, padRow_short; [reflexivity|].
  rewrite length_map.
  pose proof (length_mergePairs (tiles rest)). pose proof (length_tiles rest). lia.
Qed.

Lemma moveRowLeft_triple (v : Z) :
  moveRowLeft [Some v; Some v; Some v]
  = {| rowResult := [Some (v * 2)%Z; Some v; None]; rowIsMoved := true |}.
Proof.
  unfold moveRowLeft. cbn. rewrite Z.eqb_refl. cbn.
  f_equal. unfold somei. cbn. rewrite Z.eqb_refl. cbn.
  now rewrite orb_true_r.
Qed.

(** C1, as the code has it.  The collapser pairs tiles from the left: a
    tile merges with its right neighbour (empty cells skipped) when both are
    equal, the merged tile is emitted at once and never compared again, and
    pairing resumes after the pair; so every tile takes part in at most one
    merge, and a row can hold several merges.  A row that starts with [v, v]
    gives [2v] followed by the collapse of the rest; [[2,2,2,null]] gives
    [[4,2,null,null]] with the flag set, and [[v,v,v]] gives [[2v, v, null]]
    with the flag set. *)
Theorem collapse_pairs_without_cascade (row rest : Row) (v : Z) :
  rowResult (moveRowLeft row)
  = padRow (length row) (List.map Some (mergePairs (tiles row)))
  /\ 2 * mergeCount row <= length (tiles row)
  /\ rowResult (moveRowLeft (Some v :: Some v :: rest))
     = Some (v * 2)%Z :: rowResult (moveRowLeft rest) ++ [None]
  /\ moveRowLeft [Some 2; Some 2; Some 2; None]%Z
     = {| rowResult := [Some 4; Some 2; None; None]%Z; rowIsMoved := true |}
  /\ moveRowLeft [Some v; Some v; Some v]
     = {| rowResult := [Some (v * 2)%Z; Some v; None]; rowIsMoved := true |}.
Proof.
  repeat split.
  - apply rowResult_pairs.
  - exact (mergeCountFrom_bound row initialAcc).
  - apply moveRowLeft_pair_first.
  - apply moveRowLeft_triple.
Qed.

(** C1 as worded fails on a row with two pairs: both merge in one pass. *)
Lemma collapse_merges_second_pair :
  rowResult (moveRowLeft [Some 2; Some 2; Some 4; Some 4]%Z)
  = [Some 4; Some 8; None; None]%Z
  /\ mergeCount [Some 2; Some 2; Some 4; Some 4]%Z = 2
  /\ ~ (forall row : Row, mergeCount row <= 1).
Proof.
  split; [reflexivity|]. split; [reflexivity|].
  intros H. specialize (H [Some 2; Some 2; Some 4; Some 4]%Z).
  vm_compute in H. lia.
Qed.

Lemma all_empty_repeat (row : Row) :
  Forall (fun x => x = None) row -> row = repeat None (length row).
Proof.
  induction 1 as [|x t Hx _ IH]; [reflexivity|].
  simpl. now rewrite Hx, <- IH.
Qed.

(** C9. The flag is set exactly when the collapsed row differs from the
    input row at some position.  Hence a row of empty cells, and a row
    without empty cell and without two equal neighbours, both come back
    unchanged with the flag cleared. *)
Theorem changed_iff_row_differs (row : Row) :
  (rowIsMoved (moveRowLeft row) = true
   <-> exists i, i < length row
              /\ nth_error (rowResult (moveRowLeft row)) i <> nth_error row i)
  /\ (Forall (fun x => x = None) row ->
      moveRowLeft row = {| rowResult := row; rowIsMoved := false |})
  /\ (forall vs, row = List.map Some vs -> noAdjacentEqual vs ->
      moveRowLeft row = {| rowResult := row; rowIsMoved := false |}).
Proof.
  split; [apply rowIsMoved_position|]. split.
  - intros Hall. apply moveRowLeft_fixed.
    rewrite rowResult_pairs. rewrite (all_empty_repeat Hall) at 2 3.
    rewrite tiles_empty. simpl. now rewrite padRow_nil, <- all_empty_repeat.
  - intros vs -> Hadj. apply moveRowLeft_fixed.
    rewrite rowResult_pairs, tiles_full, (mergePairs_fixed _ Hadj).
    apply padRow_exact.
Qed.

Lemma changed_iff_row_differs_witness :
  moveRowLeft [None; None; None; None]
  = {| rowResult := [None; None; None; None]; rowIsMoved := false |}
  /\ moveRowLeft [Some 2; Some 4; Some 2; Some 8]%Z
     = {| rowResult := [Some 2; Some 4; Some 2; Some 8]%Z; rowIsMoved := false |}.
Proof.
  split.
  - apply (proj1 (proj2 (changed_iff_row_differs [None; None; None; None]))).
    repeat constructor.
  - apply (proj2 (proj2 (changed_iff_row_differs
                           [Some 2; Some 4; Some 2; Some 8]%Z))
             [2; 4; 2; 8]%Z).
    + reflexivity.
    + simpl. repeat split; discriminate.
Defined.

(** ** Game over *)

Lemma checkGameOver_cell (m : Map2048) :
  checkGameOver m = true <-> exists r c, cell m r c = Some (Some 128%Z).
Proof.
  unfold checkGameOver, cell. rewrite existsb_exists. split.
  - intros (x & Hin & Hx). apply strictEq_eq in Hx. subst x.
    apply in_concat in Hin as (row & Hrow & Hin).
    apply In_nth_error in Hrow as [r Hr]. apply In_nth_error in Hin as [c Hc].
    exists r, c. now rewrite Hr.
  - intros (r & c & H). destruct (nth_error m r) as [row|] eqn:Hr; [|discriminate].
    exists (Some 128%Z). split; [|reflexivity].
    apply in_concat. exists row. split; eapply nth_error_In; eassumption.
Qed.

(** C5. The game is over exactly when some cell of the current grid holds
    the tile 128.  The flag is not stored: it is this predicate of the
    current grid, after an undo as at any other time. *)
Theorem game_over_iff_threshold_tile (m : Map2048) (st : App.State) :
  (checkGameOver m = true <-> exists r c, cell m r c = Some (Some 128%Z))
  /\ App.isGameOver st = checkGameOver (App.map st)
  /\ (App.isGameOver (App.handleUndo st) = true
      <-> exists r c, cell (App.map (App.handleUndo st)) r c = Some (Some 128%Z)).
Proof.
  split; [apply checkGameOver_cell|]. split; [reflexivity|].
  apply checkGameOver_cell.
Qed.

(** ** The handlers *)

Section HandlerFacts.

Variable random : nat -> Q.

Lemma handleKey_over st key :
  App.isGameOver st = true -> App.handleKey random st key = (st, Ok tt).
Proof.
  intros Hover. unfold App.handleKey.
  destruct (App.dirMap key); [|reflexivity]. now rewrite Hover.
Qed.

Lemma handleKey_blocked st key direction moved :
  App.dirMap key = Some direction ->
  moveMapIn2048Rule (App.map st) direction = Ok moved ->
  isMoved moved = false ->
  App.handleKey random st key = (st, Ok tt).
Proof.
  intros Hk Hmv Hflag. unfold App.handleKey. rewrite Hk.
  destruct (App.isGameOver st); [reflexivity|].
  now rewrite Hmv, Hflag.
Qed.

Lemma dirMap_keyOf direction : App.dirMap (App.keyOf direction) = Some direction.
Proof. now destruct direction. Qed.

Lemma handleUndo_pushed m h x calls :
  App.handleUndo
    {| App.map := m; App.undoHistory := h ++ [x]; App.randomCalls := calls |}
  = {| App.map := x; App.undoHistory := h; App.randomCalls := calls |}.
Proof.
  unfold App.handleUndo. simpl.
  rewrite length_app. simpl length.
  replace (length h + 1 =? 0) with false by (symmetry; apply Nat.eqb_neq; lia).
  replace (length h + 1 - 1) with (length h) by lia.
  rewrite nth_error_app2 by lia. rewrite Nat.sub_diag. simpl.
  rewrite firstn_app, Nat.sub_diag, firstn_all. simpl.
  now rewrite app_nil_r.
Qed.

Lemma handleKey_moved st key direction moved :
  App.dirMap key = Some direction ->
  App.isGameOver st = false ->
  moveMapIn2048Rule (App.map st) direction = Ok moved ->
  isMoved moved = true ->
  exists newMap calls,
    fst (App.handleKey random st key)
    = {| App.map := newMap;
         App.undoHistory := App.undoHistory st ++ [App.map st];
         App.randomCalls := calls |}.
Proof.
  intros Hk Hover Hmv Hflag. unfold App.handleKey.
  rewrite Hk, Hover, Hmv, Hflag.
  destruct (addRandomTile random (App.randomCalls st) (result moved))
    as [[newMap|e|] calls]; simpl; eauto.
Qed.

End HandlerFacts.

(** C6. When the move engine reports that nothing moved, pressing the key
    leaves the whole state as it was: the grid, the undo history, and the
    position in the stream of random draws (the spawner drew nothing). *)
Theorem blocked_move_changes_nothing
  (random : nat -> Q) (st : App.State) (direction : Direction) (moved : MoveResult) :
  moveMapIn2048Rule (App.map st) direction = Ok moved ->
  isMoved moved = false ->
  App.handleKey random st (App.keyOf direction) = (st, Ok tt)
  /\ App.applyMove random st direction = st.
Proof.
  intros Hmv Hflag.
  assert (H : App.handleKey random st (App.keyOf direction) = (st, Ok tt))
    by (eapply handleKey_blocked; eauto using dirMap_keyOf).
  split; [exact H|]. unfold App.applyMove. now rewrite H.
Qed.

Lemma blocked_move_changes_nothing_witness :
  let st := {| App.map := [[Some 2; Some 4]; [None; None]]%Z;
               App.undoHistory := [];
               App.randomCalls := 4 |} in
  App.handleKey (fun _ => 0%Q) st App.ArrowUp = (st, Ok tt)
  /\ App.applyMove (fun _ => 0%Q) st up = st.
Proof.
  intros st.
  apply (@blocked_move_changes_nothing (fun _ => 0%Q) st up
           {| result := [[Some 2; Some 4]; [None; None]]%Z; isMoved := false |});
    reflexivity.
Defined.

(** C8. While the current grid is over, a key press does nothing: the
    handler returns before the move engine is called, so the grid, the undo
    history and the random stream stay as they were, whatever the key. *)
Theorem over_blocks_moves
  (random : nat -> Q) (st : App.State) (key : App.Key) (direction : Direction) :
  App.isGameOver st = true ->
  App.handleKey random st key = (st, Ok tt)
  /\ App.applyMove random st direction = st.
Proof.
  intros Hover. split; [now apply handleKey_over|].
  unfold App.applyMove. now rewrite handleKey_over.
Qed.

Lemma over_blocks_moves_witness :
  let st := {| App.map := [[Some 128; Some 2; Some 2; None]]%Z;
               App.undoHistory := [[[Some 64; Some 64; Some 2; None]]%Z];
               App.randomCalls := 2 |} in
  App.handleKey (fun _ => 0%Q) st App.ArrowLeft = (st, Ok tt)
  /\ App.applyMove (fun _ => 0%Q) st left = st.
Proof.
  intros st. apply over_blocks_moves. reflexivity.
Defined.

(** C2, as the code has it.  While the game is not over, a move that
    changes the grid followed at once by an undo brings back the grid, and
    the undo history, that were there before the move. *)
Theorem move_then_undo_restores
  (random : nat -> Q) (st : App.State) (direction : Direction) (moved : MoveResult) :
  App.isGameOver st = false ->
  moveMapIn2048Rule (App.map st) direction = Ok moved ->
  isMoved moved = true ->
  App.map (App.handleUndo (App.applyMove random st direction)) = App.map st
  /\ App.undoHistory (App.handleUndo (App.applyMove random st direction))
     = App.undoHistory st.
Proof.
  intros Hover Hmv Hflag.
  destruct (@handleKey_moved random st _ _ _ (dirMap_keyOf direction) Hover Hmv Hflag)
    as (newMap & calls & H).
  unfold App.applyMove. rewrite H, handleUndo_pushed. now split.
Qed.

Lemma move_then_undo_restores_witness :
  let st := {| App.map := [[Some 64; Some 64; Some 2; None]]%Z;
               App.undoHistory := [];
               App.randomCalls := 0 |} in
  App.map (App.handleUndo (App.applyMove (fun _ => 0%Q) st left)) = App.map st
  /\ App.undoHistory (App.handleUndo (App.applyMove (fun _ => 0%Q) st left))
     = App.undoHistory st.
Proof.
  intros st.
  apply (@move_then_undo_restores (fun _ => 0%Q) st left
           {| result := [[Some 128; Some 2; None; None]]%Z; isMoved := true |});
    reflexivity.
Defined.

(** C2 as worded fails once the game is over.  After the winning move the
    grid holds 128; sliding left would still change it, yet the key press is
    ignored, and the undo that follows brings back the grid from before the
    winning move, not the grid the key was pressed on. *)
Lemma undo_after_ignored_move :
  let rnd := fun _ : nat => 0%Q in
  let before := {| App.map := [[Some 64; Some 64; Some 2; None]]%Z;
                   App.undoHistory := [];
                   App.randomCalls := 0 |} in
  let st := fst (App.handleKey rnd before App.ArrowLeft) in
  App.map st = [[Some 128; Some 2; Some 2; None]]%Z
  /\ moveMapIn2048Rule (App.map st) left
     = Ok {| result := [[Some 128; Some 4; None; None]]%Z; isMoved := true |}
  /\ App.map (App.handleUndo (App.applyMove rnd st left))
     = [[Some 64; Some 64; Some 2; None]]%Z
  /\ App.map (App.handleUndo (App.applyMove rnd st left)) <> App.map st.
Proof.
  repeat split. discriminate.
Qed.

(** ** The spawner *)

Lemma in_emptyCells (m : Map2048) (i j : nat) :
  In (i, j) (emptyCells m) <-> cell m i j = Some None.
Proof.
  unfold emptyCells. rewrite in_flat_map. split.
  - intros ([i' row] & Hp & Hin). simpl in Hin.
    apply in_flat_map in Hin as ([j' x] & Hq & Hin). simpl in Hin.
    destruct x as [v|]; [contradiction|].
    destruct Hin as [Heq|[]]. inversion Heq; subst.
    apply in_entries in Hp, Hq. unfold cell. now rewrite Hp.
  - intros H. unfold cell in H.
    destruct (nth_error m i) as [row|] eqn:Hr; [|discriminate].
    exists (i, row). split; [now apply in_entries|]. simpl.
    apply in_flat_map. exists (j, None). split; [now apply in_entries|].
    simpl. now left.
Qed.

Lemma cell_placeTile (m : Map2048) (i j : nat) (v : Z) (r c : nat) :
  cell (placeTile m i j v) r c
  = option_map (fun x => if (r =? i) && (c =? j) then Some v else x) (cell m r c).
Proof.
  unfold cell, placeTile. rewrite nth_error_mapi.
  destruct (nth_error m r) as [row|]; simpl; [|reflexivity].
  now rewrite nth_error_mapi.
Qed.

Lemma getRandomInt_range (random : nat -> Q) (max calls : nat) :
  (0 <= random calls)%Q -> (random calls < 1)%Q -> 0 < max ->
  (0 <= fst (getRandomInt random max calls) < Z.of_nat max)%Z.
Proof.
  intros Hlo Hhi Hmax. unfold getRandomInt. cbn [fst].
  set (u := random calls) in *. set (M := Z.of_nat max).
  assert (HM : (0 < inject_Z M)%Q).
  { change 0%Q with (inject_Z 0). rewrite <- Zlt_Qlt. unfold M. lia. }
  split.
  - change 0%Z with (Qfloor 0). apply Qfloor_resp_le.
    apply Qmult_le_0_compat; [exact Hlo | now apply Qlt_le_weak].
  - rewrite Zlt_Qlt.
    apply Qle_lt_trans with (y := (u * inject_Z M)%Q); [apply Qfloor_le|].
    rewrite <- (Qmult_1_l (inject_Z M)) at 2.
    now apply Qmult_lt_compat_r.
Qed.

Lemma addRandomTile_full (random : nat -> Q) (calls : nat) (m : Map2048) :
  emptyCells m = [] -> addRandomTile random calls m = (Ok m, calls).
Proof. intros H. unfold addRandomTile. now rewrite H. Qed.

Lemma addRandomTile_places (random : nat -> Q) (calls : nat) (m : Map2048) :
  (0 <= random calls)%Q -> (random calls < 1)%Q -> emptyCells m <> [] ->
  exists i j v,
    In (i, j) (emptyCells m) /\ (v = 2 \/ v = 4)%Z
    /\ addRandomTile random calls m = (Ok (placeTile m i j v), S (S calls)).
Proof.
  intros Hlo Hhi Hne. unfold addRandomTile.
  assert (Hpos : 0 < length (emptyCells m))
    by (destruct (emptyCells m); [congruence | simpl; lia]).
  replace (length (emptyCells m) =? 0) with false
    by (symmetry; apply Nat.eqb_neq; lia).
  pose proof (getRandomInt_range random calls Hlo Hhi Hpos) as Hk.
  unfold getRandomInt in *. cbn [fst] in Hk.
  set (k := Qfloor _) in *. unfold at_.
  replace (k <? 0)%Z with false by (symmetry; apply Z.ltb_ge; lia).
  destruct (nth_error (emptyCells m) (Z.to_nat k)) as [[i j]|] eqn:Hnth.
  - exists i, j. eexists. split; [eapply nth_error_In; eassumption|].
    split; [|reflexivity].
    destruct (Qltb _ _); auto.
  - apply nth_error_None in Hnth. lia.
Qed.

(** C7. The spawner returns a grid that differs from its input in at most
    one cell; a cell that differs was empty and now holds 2 or 4.  When the
    input has exactly one empty cell, that cell gets the tile and every other
    cell is as before; when it has none, the grid is returned as it is. *)
Theorem spawn_changes_one_empty_cell
  (random : nat -> Q) (calls : nat) (m : Map2048) :
  (0 <= random calls)%Q -> (random calls < 1)%Q ->
  exists m',
    fst (addRandomTile random calls m) = Ok m'
    /\ (forall r c r' c',
          cell m' r c <> cell m r c -> cell m' r' c' <> cell m r' c' ->
          r = r' /\ c = c')
    /\ (forall r c,
          cell m' r c <> cell m r c ->
          cell m r c = Some None
          /\ (cell m' r c = Some (Some 2%Z) \/ cell m' r c = Some (Some 4%Z)))
    /\ (forall i j,
          cell m i j = Some None ->
          (forall r c, cell m r c = Some None -> r = i /\ c = j) ->
          (cell m' i j = Some (Some 2%Z) \/ cell m' i j = Some (Some 4%Z))
          /\ forall r c, (r, c) <> (i, j) -> cell m' r c = cell m r c)
    /\ ((forall r c, cell m r c <> Some None) -> m' = m).
Proof.
  intros Hlo Hhi.
  destruct (emptyCells m) as [|p t] eqn:Hempty.
  - exists m. rewrite addRandomTile_full by assumption.
    assert (Hnone : forall i j, cell m i j <> Some None).
    { intros i j H. apply in_emptyCells in H. rewrite Hempty in H. destruct H. }
    split; [reflexivity|].
    split; [intros r c r' c' H; congruence|].
    split; [intros r c H; congruence|].
    split; [intros i j H; now destruct (Hnone i j) | reflexivity].
  - destruct (@addRandomTile_places random calls m Hlo Hhi)
      as (i & j & v & Hin & Hv & Hadd); [congruence|].
    exists (placeTile m i j v). rewrite Hadd. split; [reflexivity|].
    apply in_emptyCells in Hin.
    assert (Hkeep : forall r c, (r, c) <> (i, j) ->
                                cell (placeTile m i j v) r c = cell m r c).
    { assert (Hid : forall o : option (option Z), option_map (fun x => x) o = o)
        by now intros [x|].
      intros r c Hrc. rewrite cell_placeTile.
      destruct (Nat.eqb_spec r i) as [->|Hr], (Nat.eqb_spec c j) as [->|Hc];
        simpl; try congruence; apply Hid. }
    assert (Hsame : forall r c, cell (placeTile m i j v) r c <> cell m r c ->
                                r = i /\ c = j).
    { intros r c Hd.
      destruct (Nat.eq_dec r i) as [->|Hr], (Nat.eq_dec c j) as [->|Hc]; auto;
        exfalso; apply Hd, Hkeep; congruence. }
    assert (Hval : cell (placeTile m i j v) i j = Some (Some 2%Z)
                   \/ cell (placeTile m i j v) i j = Some (Some 4%Z)).
    { rewrite cell_placeTile, Hin. simpl. rewrite !Nat.eqb_refl. simpl.
      destruct Hv as [->| ->]; auto. }
    split; [|split; [|split]].
    + intros r c r' c' H H'.
      destruct (Hsame _ _ H) as [-> ->], (Hsame _ _ H') as [-> ->]. now split.
    + intros r c H. destruct (Hsame _ _ H) as [-> ->]. now split.
    + intros i0 j0 _ Huniq. destruct (Huniq _ _ Hin) as [-> ->].
      split; [exact Hval | exact Hkeep].
    + intros H. exfalso. exact (H _ _ Hin).
Qed.

Lemma spawn_changes_one_empty_cell_witness :
  exists m',
    fst (addRandomTile (fun _ => (1 # 2)%Q) 0 [[Some 2; None]; [None; Some 4]]%Z)
    = Ok m'
    /\ cell m' 1 0 = Some (Some 2%Z)
    /\ cell m' 0 1 = Some None.
Proof.
  destruct (@spawn_changes_one_empty_cell (fun _ => (1 # 2)%Q) 0
              [[Some 2; None]; [None; Some 4]]%Z)
    as (m' & Hm' & _); [discriminate | reflexivity |].
  exists m'. split; [exact Hm'|].
  cbv in Hm'. inversion Hm'. split; reflexivity.
Defined.


(* ================================================================= *)
(** * Further properties of the rotator *)

Lemma cellAt_in_row (m : Map2048) (r c : nat) :
  r < length m -> c < length (nth r m []) -> cellAt m r c = Ok (get m r c).
Proof.
  intros Hr Hc. unfold cellAt, get.
  rewrite (nth_error_nth' m []) by assumption.
  now rewrite (nth_error_nth' _ None) by assumption.
Qed.

Lemma cellAt_past_row (m : Map2048) (r c : nat) :
  r < length m -> length (nth r m []) <= c -> cellAt m r c = IllTyped.
Proof.
  intros Hr Hc. unfold cellAt.
  rewrite (nth_error_nth' m []) by assumption.
  apply nth_error_None in Hc. now rewrite Hc.
Qed.

Lemma cellAt_never_throws (m : Map2048) (r c : nat) (e : Error) :
  r < length m -> cellAt m r c <> Throw e.
Proof.
  intros Hr. destruct (Nat.lt_ge_cases c (length (nth r m []))) as [Hc|Hc].
  - now rewrite cellAt_in_row.
  - now rewrite cellAt_past_row.
Qed.

Lemma mapM_never_throws {A B} (f : A -> outcome B) (l : list A) :
  (forall a e, In a l -> f a <> Throw e) -> forall e, mapM f l <> Throw e.
Proof.
  induction l as [|a t IH]; intros H e; simpl; [discriminate|].
  destruct (f a) as [b|e'|] eqn:Ea; simpl.
  - destruct (mapM f t) as [bs|e'|] eqn:Et; simpl; try discriminate.
    exfalso. apply (IH (fun a0 e0 Hin => H a0 e0 (or_intror Hin)) e'). reflexivity.
  - exfalso. apply (H a e' (or_introl eq_refl)). exact Ea.
  - discriminate.
Qed.

Lemma mapM_ok_each {A B} (f : A -> outcome B) (l : list A) (bs : list B) :
  mapM f l = Ok bs -> forall a, In a l -> exists b, f a = Ok b.
Proof.
  revert bs. induction l as [|a t IH]; intros bs H x Hin; [destruct Hin|].
  simpl in H. destruct (f a) as [b|e|] eqn:Ea; simpl in H; try discriminate.
  destruct (mapM f t) as [bs'|e|] eqn:Et; simpl in H; try discriminate.
  destruct Hin as [<-|Hin]; [eauto | eapply IH; eauto].
Qed.

Lemma arrayFrom_never_throws {B} (n : nat) (f : nat -> outcome B) :
  (forall i e, i < n -> f i <> Throw e) -> forall e, arrayFrom n f <> Throw e.
Proof.
  intros H. apply mapM_never_throws. intros i e Hi. apply in_seq in Hi.
  apply H. lia.
Qed.

Lemma arrayFrom_ok_each {B} (n : nat) (f : nat -> outcome B) (bs : list B) :
  arrayFrom n f = Ok bs -> forall i, i < n -> exists b, f i = Ok b.
Proof.
  intros H i Hi. apply (mapM_ok_each _ _ H). apply in_seq. lia.
Qed.

Lemma rotate_rows_never_throw (m : Map2048) (degree : Degree) (e : Error) :
  m <> [] -> rotateMapCounterClockwise m degree <> Throw e.
Proof.
  intros Hne. unfold rotateMapCounterClockwise.
  destruct m as [|row t]; [congruence|].
  cbv beta iota zeta delta [firstRowLength nth_error bind].
  set (g := row :: t). assert (Hlen : 0 < length g) by (simpl; lia).
  destruct degree; [discriminate| | |];
    (apply arrayFrom_never_throws; intros i e1 Hi;
     apply arrayFrom_never_throws; intros j e2 Hj;
     apply cellAt_never_throws; lia).
Qed.

(** Rows may be longer than the first one: the rotator reads the first
    [C] cells of each and never looks at the rest. *)
Lemma rotate_total_wide R C (m : Map2048) (degree : Degree) :
  length m = R -> 0 < R -> length (hd [] m) = C ->
  (forall row, In row m -> C <= length row) ->
  rotateMapCounterClockwise m degree = Ok (rotated R C m degree).
Proof.
  intros HR Hpos HC Hwide. unfold rotateMapCounterClockwise.
  assert (Hfirst : firstRowLength m = Ok C).
  { destruct m as [|row t]; simpl in *; [lia | now subst]. }
  rewrite Hfirst. cbv beta iota zeta delta [bind]. rewrite HR.
  assert (Hrow : forall r, r < R -> C <= length (nth r m []))
    by (intros r Hr; apply Hwide, nth_In; lia).
  destruct degree; simpl rotated; [reflexivity| | |];
    unfold tabulate;
    (apply arrayFrom_total; intros i Hi;
     apply arrayFrom_total; intros j Hj;
     apply cellAt_in_row; [lia|]).
  - specialize (Hrow j Hj). lia.
  - specialize (Hrow (R - i - 1)). lia.
  - specialize (Hrow (R - j - 1)). lia.
Qed.

Definition inverseDegree (degree : Degree) : Degree :=
  match degree with D0 => D0 | D90 => D270 | D180 => D180 | D270 => D90 end.

Lemma revertDegreeMap_inverse (direction : Direction) :
  revertDegreeMap direction = inverseDegree (rotateDegreeMap direction).
Proof. now destruct direction. Qed.

Lemma rotated_inverse R C (m : Map2048) (degree : Degree) :
  shape R C m ->
  rotated (rotatedRows R C degree) (rotatedColumns R C degree)
    (rotated R C m degree) (inverseDegree degree) = m.
Proof.
  intros Hs.
  assert (Hs1 := shape_rotated degree Hs).
  assert (Hs2 := shape_rotated (inverseDegree degree) Hs1).
  destruct degree; simpl in *; [reflexivity| | |];
    apply (grid_ext Hs2 Hs); intros r c Hr Hc;
    rewrite get_tabulate by lia; rewrite get_tabulate by lia;
    f_equal; lia.
Qed.

(** The rotator raises exactly on the grid without rows, whatever the
    angle, angle 0 included: [map[0].length] is read before the [switch]. *)
Theorem rotate_raises_iff_no_row (m : Map2048) (degree : Degree) :
  raises (rotateMapCounterClockwise m degree) <-> m = [].
Proof.
  split.
  - intros [e He]. destruct m as [|row t]; [reflexivity|].
    exfalso. revert He. apply rotate_rows_never_throw. discriminate.
  - intros ->. exists TypeError. now destruct degree.
Qed.

(** Index mapping of the three real rotations of an [R] by [C] grid:
    the result is built, has the transposed shape for 90 and 270 degrees and
    the same shape for 180, and its cells are those the source indexes. *)
Theorem rotate_cells (R C : nat) (m : Map2048) :
  shape R C m -> 0 < R ->
  exists m90 m180 m270,
    rotateMapCounterClockwise m D90 = Ok m90
    /\ rotateMapCounterClockwise m D180 = Ok m180
    /\ rotateMapCounterClockwise m D270 = Ok m270
    /\ shape C R m90 /\ shape R C m180 /\ shape C R m270
    /\ forall r c, r < R -> c < C ->
         cell m90 c r = cell m r (C - 1 - c)
         /\ cell m180 r c = cell m (R - 1 - r) (C - 1 - c)
         /\ cell m270 c r = cell m (R - 1 - r) c.
Proof.
  intros Hs HR.
  exists (rotated R C m D90), (rotated R C m D180), (rotated R C m D270).
  rewrite !(rotate_total _ Hs HR).
  pose proof (shape_rotated D90 Hs) as H90.
  pose proof (shape_rotated D180 Hs) as H180.
  pose proof (shape_rotated D270 Hs) as H270.
  simpl in H90, H180, H270.
  repeat (split; [first [reflexivity | assumption]|]).
  intros r c Hr Hc.
  rewrite (cell_get H90), (cell_get H180), (cell_get H270) by lia.
  rewrite !(cell_get Hs) by lia. simpl.
  rewrite !get_tabulate by lia.
  repeat split; do 2 f_equal; lia.
Qed.

Lemma rotate_cells_witness :
  exists m90 m180 m270,
    rotateMapCounterClockwise [[Some 1; Some 2; Some 3]; [Some 4; Some 5; Some 6]]%Z D90
    = Ok m90
    /\ rotateMapCounterClockwise [[Some 1; Some 2; Some 3]; [Some 4; Some 5; Some 6]]%Z D180
       = Ok m180
    /\ rotateMapCounterClockwise [[Some 1; Some 2; Some 3]; [Some 4; Some 5; Some 6]]%Z D270
       = Ok m270
    /\ shape 3 2 m90 /\ shape 2 3 m180 /\ shape 3 2 m270
    /\ forall r c, r < 2 -> c < 3 ->
         cell m90 c r
         = cell [[Some 1; Some 2; Some 3]; [Some 4; Some 5; Some 6]]%Z r (3 - 1 - c)
         /\ cell m180 r c
            = cell [[Some 1; Some 2; Some 3]; [Some 4; Some 5; Some 6]]%Z
                (2 - 1 - r) (3 - 1 - c)
         /\ cell m270 c r
            = cell [[Some 1; Some 2; Some 3]; [Some 4; Some 5; Some 6]]%Z
                (2 - 1 - r) c.
Proof.
  apply rotate_cells; [|lia].
  split; [reflexivity|].
  intros row [<-|[<-|[]]]; reflexivity.
Defined.

(** The two angle tables are inverse to each other: turning a rectangular
    grid by the forward angle of a direction and then by its revert angle
    gives the grid back. *)
Theorem rotate_then_revert (R C : nat) (m : Map2048) (direction : Direction) :
  shape R C m -> 0 < R -> 0 < C ->
  (turned <- rotateMapCounterClockwise m (rotateDegreeMap direction) ;;
   rotateMapCounterClockwise turned (revertDegreeMap direction)) = Ok m.
Proof.
  intros Hs HR HC.
  rewrite (rotate_total _ Hs HR). cbv beta iota zeta delta [bind].
  rewrite (rotate_total _ (shape_rotated _ Hs)) by now apply rotatedRows_pos.
  rewrite revertDegreeMap_inverse. f_equal. now apply rotated_inverse.
Qed.

Lemma rotate_then_revert_witness :
  (turned <- rotateMapCounterClockwise
               [[Some 1; Some 2; Some 3]; [Some 4; None; Some 6]]%Z
               (rotateDegreeMap up) ;;
   rotateMapCounterClockwise turned (revertDegreeMap up))
  = Ok [[Some 1; Some 2; Some 3]; [Some 4; None; Some 6]]%Z.
Proof.
  apply (@rotate_then_revert 2 3); [|lia|lia].
  split; [reflexivity|].
  intros row [<-|[<-|[]]]; reflexivity.
Defined.

Lemma short_row_dec (C : nat) (m : Map2048) :
  (exists row, In row m /\ length row < C)
  \/ (forall row, In row m -> C <= length row).
Proof.
  induction m as [|row t IH].
  - right. intros row [].
  - destruct (Nat.lt_ge_cases (length row) C) as [Hlt|Hge].
    + left. exists row. split; [now left | exact Hlt].
    + destruct IH as [(row' & Hin & Hlt)|Hall].
      * left. exists row'. split; [now right | exact Hlt].
      * right. intros row' [<-|Hin]; auto.
Qed.

(** Without validation, a real rotation of a grid some row of which is
    shorter than the first row reads past the end of that row, and only
    then: rows longer than the first are read up to the first row's length. *)
Theorem rotate_reads_past_short_row (m : Map2048) (degree : Degree) :
  m <> [] -> degree <> D0 ->
  rotateMapCounterClockwise m degree = IllTyped
  <-> exists row, In row m /\ length row < length (hd [] m).
Proof.
  intros Hne Hdeg.
  assert (Hpos : 0 < length m) by (destruct m; [congruence | simpl; lia]).
  split.
  - intros Hill.
    destruct (short_row_dec (length (hd [] m)) m) as [Hshort|Hwide]; [exact Hshort|].
    rewrite (@rotate_total_wide _ _ m degree eq_refl Hpos eq_refl Hwide) in Hill.
    discriminate.
  - intros (row & Hin & Hlt).
    destruct (rotateMapCounterClockwise m degree) as [m'|e|] eqn:Hrot;
      [exfalso | exfalso; revert Hrot; now apply rotate_rows_never_throw
       | reflexivity].
    apply In_nth with (d := []) in Hin as (r & Hr & Hrow).
    set (C := length (hd [] m)) in *. set (k := length row) in *.
    assert (Hcell : forall c, cellAt m r k <> Ok c).
    { intros c. rewrite cellAt_past_row; [discriminate | exact Hr |].
      rewrite Hrow. unfold k. lia. }
    unfold rotateMapCounterClockwise in Hrot.
    assert (Hfirst : firstRowLength m = Ok C)
      by (destruct m; [congruence | reflexivity]).
    rewrite Hfirst in Hrot. cbv beta iota zeta delta [bind] in Hrot.
    destruct degree; [congruence| | |].
    + destruct (@arrayFrom_ok_each _ _ _ _ Hrot (C - k - 1)) as [line Hline]; [lia|].
      destruct (@arrayFrom_ok_each _ _ _ _ Hline (r)) as [c Hc]; [lia|].
      replace (C - (C - k - 1) - 1) with k in Hc by lia. now apply Hcell in Hc.
    + destruct (@arrayFrom_ok_each _ _ _ _ Hrot (length m - r - 1)) as [line Hline]; [lia|].
      destruct (@arrayFrom_ok_each _ _ _ _ Hline (C - k - 1)) as [c Hc]; [lia|].
      replace (length m - (length m - r - 1) - 1) with r in Hc by lia.
      replace (C - (C - k - 1) - 1) with k in Hc by lia. now apply Hcell in Hc.
    + destruct (@arrayFrom_ok_each _ _ _ _ Hrot (k)) as [line Hline]; [lia|].
      destruct (@arrayFrom_ok_each _ _ _ _ Hline (length m - r - 1)) as [c Hc]; [lia|].
      replace (length m - (length m - r - 1) - 1) with r in Hc by lia.
      now apply Hcell in Hc.
Qed.

Lemma rotate_reads_past_short_row_witness :
  rotateMapCounterClockwise [[Some 1; Some 2]; [Some 3]]%Z D180 = IllTyped
  <-> exists row, In row [[Some 1; Some 2]; [Some 3]]%Z
               /\ length row < length (hd [] [[Some 1; Some 2]; [Some 3]]%Z).
Proof.
  apply rotate_reads_past_short_row; discriminate.
Defined.


(* ================================================================= *)
(** * Further properties of the row collapser *)

(** Sum of the tiles of a row. *)
Definition rowSum (row : Row) : Z := fold_right Z.add 0%Z (tiles row).

Lemma padRow_tail n (res : list (option Z)) :
  length res <= n -> padRow n res = res ++ repeat None (n - length res).
Proof.
  revert n. induction res as [|x t IH]; intros n Hn.
  - simpl. rewrite Nat.sub_0_r. apply padRow_nil.
  - destruct n as [|n]; simpl in Hn; [lia|].
    rewrite padRow_cons, IH by lia. reflexivity.
Qed.

Lemma tiles_app (a b : Row) : tiles (a ++ b) = tiles a ++ tiles b.
Proof. unfold tiles. apply flat_map_app. Qed.

Lemma tiles_rowResult (row : Row) :
  tiles (rowResult (moveRowLeft row)) = mergePairs (tiles row).
Proof.
  rewrite rowResult_pairs, padRow_tail.
  - now rewrite tiles_app, tiles_full, tiles_empty, app_nil_r.
  - rewrite length_map.
    pose proof (length_mergePairs (tiles row)). pose proof (length_tiles row). lia.
Qed.

Lemma mergePairs_step (v1 v2 : Z) (rest : list Z) :
  mergePairs (v1 :: v2 :: rest)
  = if Z.eqb v1 v2 then (v2 * 2)%Z :: mergePairs rest
    else v1 :: mergePairs (v2 :: rest).
Proof. reflexivity. Qed.

Lemma sum_mergePairs (vs : list Z) :
  fold_right Z.add 0%Z (mergePairs vs) = fold_right Z.add 0%Z vs.
Proof.
  assert (H : forall n ws, length ws <= n ->
              fold_right Z.add 0%Z (mergePairs ws) = fold_right Z.add 0%Z ws).
  { induction n as [|n IH]; intros ws Hn.
    - destruct ws; [reflexivity | simpl in Hn; lia].
    - destruct ws as [|v1 [|v2 rest]]; try reflexivity.
      rewrite mergePairs_step. destruct (Z.eqb_spec v1 v2) as [->|Hne].
      + cbn [fold_right]. rewrite IH by (simpl in Hn; lia). lia.
      + cbn [fold_right]. rewrite IH by (simpl in Hn; simpl; lia).
        reflexivity. }
  now apply (H (length vs)).
Qed.

Lemma mergePairs_same_length (vs : list Z) :
  length (mergePairs vs) = length vs -> mergePairs vs = vs.
Proof.
  assert (H : forall n ws, length ws <= n ->
              length (mergePairs ws) = length ws -> mergePairs ws = ws).
  { induction n as [|n IH]; intros ws Hn Hlen.
    - destruct ws; [reflexivity | simpl in Hn; lia].
    - destruct ws as [|v1 [|v2 rest]]; try reflexivity.
      revert Hlen. rewrite mergePairs_step. destruct (Z.eqb v1 v2); intros Hlen.
      + pose proof (length_mergePairs rest). simpl in Hlen. lia.
      + f_equal. apply IH; [simpl in Hn; simpl; lia|].
        simpl in Hlen. simpl. lia. }
  now apply (H (length vs)).
Qed.

Lemma emitted_count (row : Row) : forall acc,
  length (emitted (fold_left reducer row acc)) + mergeCountFrom acc row
  = length (accResult acc) + length (pending acc) + length (tiles row).
Proof.
  induction row as [|x t IH]; intros acc.
  - unfold emitted, pending. simpl. destruct (lastCell acc); simpl;
      rewrite ?length_app; simpl; lia.
  - destruct x as [v|]; simpl fold_left; simpl mergeCountFrom.
    + specialize (IH (reducer acc (Some v))). revert IH.
      unfold merges, reducer, pending.
      destruct (lastCell acc) as [l|]; simpl.
      * destruct (Z.eqb l v); simpl; rewrite length_app; simpl; lia.
      * lia.
    + specialize (IH acc). unfold merges. simpl. lia.
Qed.

Lemma tiles_count (row : Row) :
  length (tiles (rowResult (moveRowLeft row))) + mergeCount row
  = length (tiles row).
Proof.
  rewrite tiles_rowResult.
  pose proof (emitted_count row initialAcc) as H.
  rewrite emitted_fold in H. simpl in H. rewrite length_map in H. exact H.
Qed.

(** The collapsed row has the length of the input row and is packed to the
    left: its tiles come first, and only empty cells follow. *)
Theorem collapse_left_packed (row : Row) :
  exists ts,
    rowResult (moveRowLeft row)
    = List.map Some ts ++ repeat None (length row - length ts)
    /\ length ts <= length row
    /\ length (rowResult (moveRowLeft row)) = length row.
Proof.
  exists (mergePairs (tiles row)).
  assert (Hlen : length (mergePairs (tiles row)) <= length row).
  { pose proof (length_mergePairs (tiles row)). pose proof (length_tiles row). lia. }
  split; [|split; [exact Hlen | apply length_moveRowLeft]].
  rewrite rowResult_pairs, padRow_tail by now rewrite length_map.
  now rewrite length_map.
Qed.

(** Collapsing a row keeps the sum of its tiles: a merge replaces two equal
    tiles by one of twice the value. *)
Theorem collapse_preserves_sum (row : Row) :
  rowSum (rowResult (moveRowLeft row)) = rowSum row.
Proof.
  unfold rowSum. rewrite tiles_rowResult. apply sum_mergePairs.
Qed.

(** Every merge removes exactly one tile from the row, so the row never
    gains a tile, and a row in which a merge took place is reported as
    changed. *)
Theorem collapse_counts_merges (row : Row) :
  length (tiles (rowResult (moveRowLeft row))) + mergeCount row
  = length (tiles row)
  /\ (0 < mergeCount row -> rowIsMoved (moveRowLeft row) = true).
Proof.
  split; [apply tiles_count|].
  intros Hpos. apply rowIsMoved_differs. intros Heq.
  pose proof (tiles_count row) as H. rewrite Heq in H. lia.
Qed.

Lemma collapse_counts_merges_witness :
  length (tiles (rowResult (moveRowLeft [Some 2; None; Some 2; Some 4]%Z)))
  + mergeCount [Some 2; None; Some 2; Some 4]%Z
  = length (tiles [Some 2; None; Some 2; Some 4]%Z)
  /\ rowIsMoved (moveRowLeft [Some 2; None; Some 2; Some 4]%Z) = true.
Proof.
  destruct (collapse_counts_merges [Some 2; None; Some 2; Some 4]%Z) as [Hc Hm].
  split; [exact Hc|]. apply Hm. vm_compute. lia.
Defined.

(** A pass in which nothing merged only slides: collapsing its result again
    changes nothing. *)
Theorem collapse_again_after_slide (row : Row) :
  mergeCount row = 0 ->
  moveRowLeft (rowResult (moveRowLeft row))
  = {| rowResult := rowResult (moveRowLeft row); rowIsMoved := false |}.
Proof.
  intros Hzero. apply moveRowLeft_fixed.
  pose proof (tiles_count row) as Hcount. rewrite Hzero, Nat.add_0_r in Hcount.
  rewrite tiles_rowResult in Hcount. apply mergePairs_same_length in Hcount.
  rewrite (rowResult_pairs (rowResult (moveRowLeft row))).
  rewrite tiles_rowResult, length_moveRowLeft, Hcount, Hcount.
  rewrite rowResult_pairs. now rewrite Hcount.
Qed.

Lemma collapse_again_after_slide_witness :
  moveRowLeft (rowResult (moveRowLeft [None; Some 2; None; Some 4]%Z))
  = {| rowResult := rowResult (moveRowLeft [None; Some 2; None; Some 4]%Z);
       rowIsMoved := false |}.
Proof.
  apply collapse_again_after_slide. reflexivity.
Defined.


(* ================================================================= *)
(** * Further properties of the move engine *)

(** The collapsed row alone. *)
Definition collapse (row : Row) : Row := rowResult (moveRowLeft row).

Lemma result_moveLeft (m : Map2048) : result (moveLeft m) = List.map collapse m.
Proof. unfold moveLeft. simpl. now rewrite map_map. Qed.

Lemma isMoved_moveLeft (m : Map2048) :
  isMoved (moveLeft m) = existsb (fun row => rowIsMoved (moveRowLeft row)) m.
Proof.
  unfold moveLeft. simpl. induction m as [|row t IH]; simpl; congruence.
Qed.

Lemma row_eq_dec (a b : Row) : {a = b} + {a <> b}.
Proof. decide equality. decide equality. apply Z.eq_dec. Qed.

Lemma rowIsMoved_false (row : Row) :
  rowIsMoved (moveRowLeft row) = false -> collapse row = row.
Proof.
  intros Hf. destruct (row_eq_dec (collapse row) row) as [Heq|Hne]; [exact Heq|].
  apply rowIsMoved_differs in Hne. congruence.
Qed.

Lemma moveLeft_differs (m : Map2048) :
  isMoved (moveLeft m) = true <-> result (moveLeft m) <> m.
Proof.
  rewrite isMoved_moveLeft, result_moveLeft.
  induction m as [|row t IH]; cbn [existsb List.map].
  - split; [discriminate | congruence].
  - rewrite orb_true_iff, IH, rowIsMoved_differs. fold (collapse row). split.
    + intros [H|H] Heq; inversion Heq; contradiction.
    + intros Hne.
      destruct (rowIsMoved (moveRowLeft row)) eqn:E.
      * left. now apply rowIsMoved_differs.
      * right. intros Heq. apply Hne. f_equal; [|exact Heq].
        now apply rowIsMoved_false.
Qed.

Lemma move_value R C (m : Map2048) (direction : Direction) :
  shape R C m -> 0 < R -> 0 < C ->
  let fwd := rotated R C m (rotateDegreeMap direction) in
  moveMapIn2048Rule m direction
  = Ok {| result :=
            rotated (rotatedRows R C (rotateDegreeMap direction))
                    (rotatedColumns R C (rotateDegreeMap direction))
                    (result (moveLeft fwd)) (revertDegreeMap direction);
          isMoved := isMoved (moveLeft fwd) |}.
Proof.
  intros Hs HR HC fwd. unfold moveMapIn2048Rule.
  assert (Hv : validateMapIsNByM m = Ok true)
    by (apply validate_shape; now exists R, C).
  rewrite Hv. cbv beta iota zeta delta [bind negb].
  rewrite (rotate_total (rotateDegreeMap direction) Hs HR).
  cbv beta iota zeta delta [bind]. fold fwd.
  pose proof (shape_moveLeft (shape_rotated (rotateDegreeMap direction) Hs)) as Hm.
  fold fwd in Hm.
  rewrite (rotate_total (revertDegreeMap direction) Hm
             (rotatedRows_pos (rotateDegreeMap direction) HR HC)).
  reflexivity.
Qed.

Lemma rotated_injective R C (a b : Map2048) (degree : Degree) :
  shape R C a -> shape R C b ->
  rotated R C a degree = rotated R C b degree -> a = b.
Proof.
  intros Ha Hb Heq.
  rewrite <- (rotated_inverse degree Ha), <- (rotated_inverse degree Hb).
  now rewrite Heq.
Qed.

(** In every direction, on a rectangular grid with at least one cell, the
    flag of the move engine is set exactly when the grid it returns differs
    from the grid it was given: a move reported as unchanged returns the
    input grid itself. *)
Theorem move_flag_iff_differs
  (R C : nat) (m : Map2048) (direction : Direction) :
  shape R C m -> 0 < R -> 0 < C ->
  exists moved,
    moveMapIn2048Rule m direction = Ok moved
    /\ (isMoved moved = true <-> result moved <> m).
Proof.
  intros Hs HR HC. eexists. split; [apply (move_value direction Hs HR HC)|].
  cbv zeta. cbn [result isMoved].
  set (fwd := rotated R C m (rotateDegreeMap direction)).
  assert (Hfwd : shape (rotatedRows R C (rotateDegreeMap direction))
                       (rotatedColumns R C (rotateDegreeMap direction)) fwd)
    by apply (shape_rotated _ Hs).
  pose proof (shape_moveLeft Hfwd) as Hmid.
  rewrite moveLeft_differs, revertDegreeMap_inverse.
  rewrite <- (rotated_inverse (rotateDegreeMap direction) Hs) at 1. fold fwd.
  split.
  - intros Hne Heq. apply Hne.
    exact (rotated_injective _ Hmid Hfwd Heq).
  - intros Hne Heq. apply Hne. now rewrite Heq.
Qed.

Lemma move_flag_iff_differs_witness :
  exists moved,
    moveMapIn2048Rule [[Some 2; None]; [Some 2; Some 4]]%Z down = Ok moved
    /\ (isMoved moved = true
        <-> result moved <> [[Some 2; None]; [Some 2; Some 4]]%Z).
Proof.
  apply (@move_flag_iff_differs 2 2); [|lia|lia].
  split; [reflexivity|].
  intros row [<-|[<-|[]]]; reflexivity.
Defined.

(** ** Each direction, line by line *)

(** Column [c] of a grid, top to bottom. *)
Definition column (m : Map2048) (c : nat) : Row :=
  List.map (fun row => nth c row None) m.

Lemma nth_map_in {A B} (f : A -> B) (l : list A) (k : nat) (d : A) (d' : B) :
  k < length l -> nth k (List.map f l) d' = f (nth k l d).
Proof.
  intros Hk. apply nth_error_nth.
  now rewrite nth_error_map, (nth_error_nth' l d Hk).
Qed.

Lemma map_seq_ext {B} (f g : nat -> B) (n : nat) :
  (forall i, i < n -> f i = g i) -> List.map f (seq 0 n) = List.map g (seq 0 n).
Proof.
  intros H. apply map_ext_in. intros i Hi. apply in_seq in Hi. apply H. lia.
Qed.

Lemma tabulated_self {A} (l : list A) (d : A) :
  List.map (fun i => nth i l d) (seq 0 (length l)) = l.
Proof.
  apply (nth_ext _ _ d d).
  - now rewrite length_map, length_seq.
  - intros i Hi. rewrite length_map, length_seq in Hi.
    now apply (nth_tabulated (fun i => nth i l d)).
Qed.

Lemma rev_tabulated {A} (l : list A) (d : A) (n : nat) :
  length l = n -> List.map (fun i => nth (n - i - 1) l d) (seq 0 n) = rev l.
Proof.
  intros Hn. apply (nth_ext _ _ d d).
  - now rewrite length_map, length_seq, length_rev.
  - intros i Hi. rewrite length_map, length_seq in Hi.
    rewrite (nth_tabulated (fun i => nth (n - i - 1) l d)) by assumption.
    rewrite rev_nth by lia. f_equal. lia.
Qed.

Lemma map_via_index {A B} (g : A -> B) (l : list A) (d : A) :
  List.map g l = List.map (fun i => g (nth i l d)) (seq 0 (length l)).
Proof.
  rewrite <- (tabulated_self l d) at 1. now rewrite map_map.
Qed.

Lemma row_tabulate R C f r :
  r < R -> nth r (tabulate R C f) [] = List.map (fun c => f r c) (seq 0 C).
Proof.
  intros Hr. unfold tabulate.
  now apply (nth_tabulated (fun r => List.map (fun c => f r c) (seq 0 C))).
Qed.

Lemma column_tabulate R C f c :
  c < C -> column (tabulate R C f) c = List.map (fun r => f r c) (seq 0 R).
Proof.
  intros Hc. unfold column, tabulate. rewrite map_map.
  apply map_seq_ext. intros r _.
  now apply (nth_tabulated (fun c => f r c)).
Qed.

Lemma column_as_get R C (m : Map2048) (c : nat) :
  shape R C m -> column m c = List.map (fun r => get m r c) (seq 0 R).
Proof.
  intros [HR _]. unfold column. rewrite (map_via_index _ m []), HR. reflexivity.
Qed.

Lemma length_column (m : Map2048) (c : nat) : length (column m c) = length m.
Proof. apply length_map. Qed.

Lemma length_collapse (row : Row) : length (collapse row) = length row.
Proof. apply length_moveRowLeft. Qed.

Lemma row_collapsed (m : Map2048) (k : nat) :
  k < length m -> nth k (List.map collapse m) [] = collapse (nth k m []).
Proof. intros Hk. now apply nth_map_in. Qed.

(** Left and right, row by row: a left move collapses every row; a right
    move collapses every row read from its right end. *)
Theorem move_along_rows (R C : nat) (m : Map2048) :
  shape R C m -> 0 < R -> 0 < C ->
  exists toLeft toRight,
    moveMapIn2048Rule m left = Ok toLeft
    /\ moveMapIn2048Rule m right = Ok toRight
    /\ result toLeft = List.map collapse m
    /\ result toRight = List.map (fun row => rev (collapse (rev row))) m.
Proof.
  intros Hs HR HC. do 2 eexists.
  split; [apply (move_value left Hs HR HC)|].
  split; [apply (move_value right Hs HR HC)|].
  cbv zeta. cbn [result rotateDegreeMap revertDegreeMap rotatedRows
                 rotatedColumns rotated].
  split; [apply result_moveLeft|].
  rewrite result_moveLeft.
  set (fwd := tabulate R C (fun r c => get m (R - r - 1) (C - c - 1))).
  assert (Hfwd : shape R C fwd) by apply shape_tabulate.
  assert (Hout : shape R C (List.map (fun row => rev (collapse (rev row))) m)).
  { destruct Hs as [HRm HCm]. split; [now rewrite length_map|].
    intros row Hin. apply in_map_iff in Hin as (row0 & <- & Hin0).
    rewrite length_rev, length_collapse, length_rev. now apply HCm. }
  apply (grid_ext (shape_tabulate R C _) Hout). intros r c Hr Hc.
  rewrite get_tabulate by assumption. unfold get.
  assert (HRm : length m = R) by apply Hs.
  assert (Hlf : length fwd = R) by apply Hfwd.
  rewrite row_collapsed by lia.
  rewrite (@nth_map_in _ _ _ m r [] []) by lia.
  unfold fwd. rewrite row_tabulate by lia.
  rewrite (map_seq_ext _ (fun c0 => nth (C - c0 - 1) (nth r m []) None))
    by (intros i Hi; unfold get; do 2 f_equal; lia).
  rewrite rev_tabulated by exact (shape_row Hs Hr).
  rewrite rev_nth by (rewrite length_collapse, length_rev, (shape_row Hs Hr); lia).
  rewrite length_collapse, length_rev, (shape_row Hs Hr). f_equal. lia.
Qed.

Lemma move_along_rows_witness :
  exists toLeft toRight,
    moveMapIn2048Rule [[Some 2; Some 2; None]; [None; Some 4; Some 4]]%Z left
    = Ok toLeft
    /\ moveMapIn2048Rule [[Some 2; Some 2; None]; [None; Some 4; Some 4]]%Z right
       = Ok toRight
    /\ result toLeft
       = List.map collapse [[Some 2; Some 2; None]; [None; Some 4; Some 4]]%Z
    /\ result toRight
       = List.map (fun row => rev (collapse (rev row)))
           [[Some 2; Some 2; None]; [None; Some 4; Some 4]]%Z.
Proof.
  apply (@move_along_rows 2 3); [|lia|lia].
  split; [reflexivity|].
  intros row [<-|[<-|[]]]; reflexivity.
Defined.

Lemma nth_column R C (m : Map2048) (r c : nat) :
  shape R C m -> r < R -> nth r (column m c) None = get m r c.
Proof.
  intros Hs Hr. rewrite (column_as_get c Hs).
  now apply (nth_tabulated (fun r => get m r c)).
Qed.

Lemma column_reversed R C (m : Map2048) (c : nat) :
  shape R C m ->
  List.map (fun r => get m (R - r - 1) c) (seq 0 R) = rev (column m c).
Proof.
  intros Hs.
  rewrite <- (rev_tabulated (column m c) None (n := R))
    by (rewrite length_column; apply Hs).
  apply map_seq_ext. intros r Hr. symmetry. apply (nth_column c Hs). lia.
Qed.

(** Up and down, column by column: an up move collapses every column read
    from the top; a down move collapses every column read from the bottom. *)
Theorem move_along_columns (R C : nat) (m : Map2048) :
  shape R C m -> 0 < R -> 0 < C ->
  exists toTop toBottom,
    moveMapIn2048Rule m up = Ok toTop
    /\ moveMapIn2048Rule m down = Ok toBottom
    /\ forall c, c < C ->
         column (result toTop) c = collapse (column m c)
         /\ column (result toBottom) c = rev (collapse (rev (column m c))).
Proof.
  intros Hs HR HC. do 2 eexists.
  split; [apply (move_value up Hs HR HC)|].
  split; [apply (move_value down Hs HR HC)|].
  cbv zeta. cbn [result rotateDegreeMap revertDegreeMap rotatedRows
                 rotatedColumns rotated].
  intros c Hc. rewrite !result_moveLeft. split.
  - set (fwd := tabulate C R (fun c0 r => get m r (C - c0 - 1))).
    assert (Hfwd : shape C R fwd) by apply shape_tabulate.
    assert (Hlf : length fwd = C) by apply Hfwd.
    rewrite column_tabulate by assumption. unfold get at 1.
    rewrite row_collapsed by lia.
    unfold fwd. rewrite row_tabulate by lia.
    rewrite (map_seq_ext (fun r => get m r (C - (C - c - 1) - 1))
                         (fun r => get m r c))
      by (intros i _; f_equal; lia).
    rewrite <- (column_as_get c Hs).
    replace R with (length (collapse (column m c)))
      by (rewrite length_collapse, length_column; apply Hs).
    apply tabulated_self.
  - set (fwd := tabulate C R (fun c0 r => get m (R - r - 1) c0)).
    assert (Hfwd : shape C R fwd) by apply shape_tabulate.
    assert (Hlf : length fwd = C) by apply Hfwd.
    rewrite column_tabulate by assumption. unfold get at 1.
    rewrite (rev_tabulated (nth c (List.map collapse fwd) []) None (n := R)).
    + rewrite row_collapsed by lia. unfold fwd. rewrite row_tabulate by lia.
      now rewrite (column_reversed c Hs).
    + rewrite row_collapsed by lia. rewrite length_collapse.
      exact (shape_row Hfwd Hc).
Qed.

Lemma move_along_columns_witness :
  exists toTop toBottom,
    moveMapIn2048Rule [[Some 2; Some 2; None]; [Some 2; Some 4; Some 4]]%Z up
    = Ok toTop
    /\ moveMapIn2048Rule [[Some 2; Some 2; None]; [Some 2; Some 4; Some 4]]%Z down
       = Ok toBottom
    /\ forall c, c < 3 ->
         column (result toTop) c
         = collapse (column [[Some 2; Some 2; None]; [Some 2; Some 4; Some 4]]%Z c)
         /\ column (result toBottom) c
            = rev (collapse (rev
                (column [[Some 2; Some 2; None]; [Some 2; Some 4; Some 4]]%Z c))).
Proof.
  apply (@move_along_columns 2 3); [|lia|lia].
  split; [reflexivity|].
  intros row [<-|[<-|[]]]; reflexivity.
Defined.

(** ** The total of the tiles *)

Definition cellValue (x : option Z) : Z :=
  match x with Some v => v | None => 0%Z end.

(** Sum of all the tiles of a grid. *)
Definition gridSum (m : Map2048) : Z :=
  fold_right Z.add 0%Z (List.map rowSum m).

(** [zsum n f] is [f 0 + ... + f (n - 1)]. *)
Fixpoint zsum (n : nat) (f : nat -> Z) : Z :=
  match n with
  | 0 => 0%Z
  | S k => (zsum k f + f k)%Z
  end.

Lemma zsum_ext n (f g : nat -> Z) :
  (forall i, i < n -> f i = g i) -> zsum n f = zsum n g.
Proof.
  induction n as [|n IH]; intros H; simpl; [reflexivity|].
  rewrite IH by (intros; apply H; lia). now rewrite H by lia.
Qed.

Lemma zsum_shift n (f : nat -> Z) :
  zsum (S n) f = (f 0%nat + zsum n (fun i => f (S i)))%Z.
Proof.
  induction n as [|n IH]; [simpl; lia|].
  change (zsum (S (S n)) f) with (zsum (S n) f + f (S n))%Z.
  rewrite IH. simpl. lia.
Qed.

Lemma zsum_rev n (f : nat -> Z) :
  zsum n (fun i => f (n - i - 1)) = zsum n f.
Proof.
  induction n as [|n IH]; [reflexivity|].
  rewrite zsum_shift.
  rewrite (@zsum_ext n _ (fun i => f (n - i - 1)))
    by (intros i Hi; f_equal; lia).
  rewrite IH. simpl. replace (n - 0) with n by lia. lia.
Qed.

Lemma zsum_add n (f g : nat -> Z) :
  zsum n (fun i => (f i + g i)%Z) = (zsum n f + zsum n g)%Z.
Proof. induction n as [|n IH]; simpl; [reflexivity | rewrite IH; lia]. Qed.

Lemma zsum_swap R C (f : nat -> nat -> Z) :
  zsum R (fun r => zsum C (fun c => f r c))
  = zsum C (fun c => zsum R (fun r => f r c)).
Proof.
  induction R as [|R IH]; simpl.
  - induction C as [|C IHC]; simpl; [reflexivity | rewrite <- IHC; reflexivity].
  - rewrite IH, <- zsum_add. reflexivity.
Qed.

Lemma sum_tabulated (n : nat) (f : nat -> Z) :
  fold_right Z.add 0%Z (List.map f (seq 0 n)) = zsum n f.
Proof.
  induction n as [|n IH]; [reflexivity|].
  rewrite seq_S, map_app, fold_right_app. simpl.
  rewrite <- IH. clear IH.
  generalize (List.map f (seq 0 n)) as l. intros l.
  induction l as [|x t IHl]; simpl; lia.
Qed.

(** Sum of a weight over all the cells of a grid. *)
Definition gridTotal (w : option Z -> Z) (m : Map2048) : Z :=
  fold_right Z.add 0%Z
    (List.map (fun row => fold_right Z.add 0%Z (List.map w row)) m).

Lemma rowSum_cells (row : Row) :
  rowSum row = fold_right Z.add 0%Z (List.map cellValue row).
Proof.
  unfold rowSum. induction row as [|[v|] t IH]; simpl; congruence.
Qed.

Lemma gridSum_total (m : Map2048) : gridSum m = gridTotal cellValue m.
Proof.
  unfold gridSum, gridTotal. f_equal. apply map_ext. apply rowSum_cells.
Qed.

Lemma gridTotal_tabulate w R C f :
  gridTotal w (tabulate R C f) = zsum R (fun r => zsum C (fun c => w (f r c))).
Proof.
  unfold gridTotal, tabulate. rewrite map_map, sum_tabulated.
  apply zsum_ext. intros r _.
  now rewrite map_map, sum_tabulated.
Qed.

Lemma tabulate_get R C (m : Map2048) :
  shape R C m -> tabulate R C (fun r c => get m r c) = m.
Proof.
  intros Hs. apply (grid_ext (shape_tabulate R C _) Hs).
  intros r c Hr Hc. now rewrite get_tabulate.
Qed.

Lemma gridTotal_cells w R C (m : Map2048) :
  shape R C m ->
  gridTotal w m = zsum R (fun r => zsum C (fun c => w (get m r c))).
Proof.
  intros Hs. rewrite <- (tabulate_get Hs) at 1. apply gridTotal_tabulate.
Qed.

Lemma gridTotal_rotated w R C (m : Map2048) (degree : Degree) :
  shape R C m -> gridTotal w (rotated R C m degree) = gridTotal w m.
Proof.
  intros Hs. rewrite (gridTotal_cells w Hs).
  destruct degree; simpl rotated.
  - apply (gridTotal_cells w Hs).
  - rewrite gridTotal_tabulate.
    rewrite (zsum_rev C (fun c => zsum R (fun r => w (get m r c)))).
    symmetry. apply zsum_swap.
  - rewrite gridTotal_tabulate.
    rewrite (zsum_rev R (fun r => zsum C (fun c => w (get m r (C - c - 1))))).
    apply zsum_ext. intros r _.
    apply (zsum_rev C (fun c => w (get m r c))).
  - rewrite gridTotal_tabulate. rewrite zsum_swap.
    apply (zsum_rev R (fun r => zsum C (fun c => w (get m r c)))).
Qed.

Lemma gridSum_rotated R C (m : Map2048) (degree : Degree) :
  shape R C m -> gridSum (rotated R C m degree) = gridSum m.
Proof.
  intros Hs. rewrite !gridSum_total. now apply gridTotal_rotated.
Qed.

Lemma rowSum_collapse (row : Row) : rowSum (collapse row) = rowSum row.
Proof.
  unfold rowSum, collapse. rewrite tiles_rowResult. apply sum_mergePairs.
Qed.

Lemma gridSum_moveLeft (m : Map2048) : gridSum (result (moveLeft m)) = gridSum m.
Proof.
  rewrite result_moveLeft. unfold gridSum. rewrite map_map.
  induction m as [|row t IH]; [reflexivity|].
  cbn [List.map fold_right]. now rewrite rowSum_collapse, IH.
Qed.

Lemma moved_sum R C (m : Map2048) (direction : Direction) :
  shape R C m ->
  gridSum (rotated (rotatedRows R C (rotateDegreeMap direction))
                   (rotatedColumns R C (rotateDegreeMap direction))
                   (result (moveLeft (rotated R C m (rotateDegreeMap direction))))
                   (revertDegreeMap direction))
  = gridSum m.
Proof.
  intros Hs.
  pose proof (shape_rotated (rotateDegreeMap direction) Hs) as Hfwd.
  rewrite (gridSum_rotated _ (shape_moveLeft Hfwd)).
  rewrite gridSum_moveLeft. now apply gridSum_rotated.
Qed.

(** A move in any direction keeps the total of the tiles on the grid. *)
Theorem move_preserves_sum
  (R C : nat) (m : Map2048) (direction : Direction) :
  shape R C m -> 0 < R -> 0 < C ->
  exists moved,
    moveMapIn2048Rule m direction = Ok moved
    /\ gridSum (result moved) = gridSum m.
Proof.
  intros Hs HR HC. eexists. split; [apply (move_value direction Hs HR HC)|].
  cbv zeta. cbn [result]. now apply moved_sum.
Qed.

Lemma move_preserves_sum_witness :
  exists moved,
    moveMapIn2048Rule [[Some 2; Some 2; None]; [Some 2; Some 4; Some 4]]%Z up
    = Ok moved
    /\ gridSum (result moved)
       = gridSum [[Some 2; Some 2; None]; [Some 2; Some 4; Some 4]]%Z.
Proof.
  apply (@move_preserves_sum 2 3); [|lia|lia].
  split; [reflexivity|].
  intros row [<-|[<-|[]]]; reflexivity.
Defined.

(** ** Room for the next tile *)

Definition emptyWeight (x : option Z) : Z :=
  match x with None => 1%Z | Some _ => 0%Z end.

Definition rowEmpty (row : Row) : Z :=
  fold_right Z.add 0%Z (List.map emptyWeight row).

Lemma length_row_empties (i : nat) (row : Row) : forall k,
  Z.of_nat (length (flat_map (fun q : nat * option Z =>
                      match snd q with
                      | None => [(i, fst q)]
                      | Some _ => []
                      end) (entriesFrom k row)))
  = rowEmpty row.
Proof.
  unfold rowEmpty.
  induction row as [|[v|] t IH]; intros k; cbn [entriesFrom flat_map snd fst
    List.map fold_right emptyWeight app]; [reflexivity | apply IH |].
  cbn [length]. rewrite Nat2Z.inj_succ, IH. lia.
Qed.

Lemma length_emptyFrom (m : Map2048) : forall k,
  Z.of_nat (length (flat_map (fun p : nat * list (option Z) =>
                      flat_map (fun q : nat * option Z =>
                        match snd q with
                        | None => [(fst p, fst q)]
                        | Some _ => []
                        end) (entries (snd p))) (entriesFrom k m)))
  = gridTotal emptyWeight m.
Proof.
  unfold gridTotal.
  induction m as [|row t IH]; intros k; [reflexivity|].
  cbn [entriesFrom flat_map snd fst List.map fold_right].
  rewrite length_app, Nat2Z.inj_add, IH.
  unfold entries. now rewrite length_row_empties.
Qed.

Lemma length_emptyCells (m : Map2048) :
  Z.of_nat (length (emptyCells m)) = gridTotal emptyWeight m.
Proof. apply length_emptyFrom. Qed.

Lemma rowEmpty_tiles (row : Row) :
  (rowEmpty row + Z.of_nat (length (tiles row)) = Z.of_nat (length row))%Z.
Proof.
  unfold rowEmpty.
  induction row as [|[v|] t IH]; cbn [List.map fold_right emptyWeight tiles
    flat_map app length]; [reflexivity | |];
    fold (tiles t); rewrite ?Nat2Z.inj_succ; lia.
Qed.

Lemma rowEmpty_collapse (row : Row) :
  rowEmpty (collapse row) = (rowEmpty row + Z.of_nat (mergeCount row))%Z.
Proof.
  pose proof (rowEmpty_tiles row). pose proof (rowEmpty_tiles (collapse row)) as H'.
  rewrite length_collapse in H'. pose proof (tiles_count row).
  unfold collapse in *. lia.
Qed.

Lemma full_row (row : Row) :
  length (tiles row) = length row -> row = List.map Some (tiles row).
Proof.
  induction row as [|[v|] t IH]; intros H; [reflexivity | |].
  - cbn [tiles flat_map app List.map]. fold (tiles t). f_equal.
    apply IH. simpl in H. unfold tiles in *. lia.
  - exfalso. pose proof (length_tiles t). simpl in H. unfold tiles in *. lia.
Qed.

Lemma moved_row_has_room (row : Row) :
  rowIsMoved (moveRowLeft row) = true -> (0 < rowEmpty (collapse row))%Z.
Proof.
  intros Hmoved.
  pose proof (rowEmpty_collapse row) as Hc. pose proof (rowEmpty_tiles row) as Ht.
  assert (Hnn : (0 <= rowEmpty row)%Z).
  { pose proof (length_tiles row). lia. }
  destruct (Z.eq_dec (rowEmpty (collapse row)) 0) as [Hzero|]; [|lia].
  exfalso. apply rowIsMoved_differs in Hmoved. apply Hmoved.
  assert (Hm : mergeCount row = 0) by lia.
  assert (Hfull : length (tiles row) = length row) by lia.
  pose proof (tiles_count row) as Hcount. rewrite Hm, Nat.add_0_r in Hcount.
  rewrite tiles_rowResult in Hcount. apply mergePairs_same_length in Hcount.
  rewrite rowResult_pairs, Hcount.
  rewrite (full_row _ Hfull) at 1 3. rewrite length_map, <- (length_map Some).
  apply padRow_exact.
Qed.

Lemma gridTotal_cons w (row : Row) (t : Map2048) :
  gridTotal w (row :: t)
  = (fold_right Z.add 0%Z (List.map w row) + gridTotal w t)%Z.
Proof. reflexivity. Qed.

Lemma rowEmpty_nonneg (row : Row) : (0 <= rowEmpty row)%Z.
Proof. pose proof (rowEmpty_tiles row). pose proof (length_tiles row). lia. Qed.

Lemma gridEmpty_nonneg (m : Map2048) : (0 <= gridTotal emptyWeight m)%Z.
Proof. rewrite <- length_emptyCells. lia. Qed.

Lemma moveLeft_room (m : Map2048) :
  (gridTotal emptyWeight m <= gridTotal emptyWeight (result (moveLeft m)))%Z
  /\ (isMoved (moveLeft m) = true ->
      (0 < gridTotal emptyWeight (result (moveLeft m)))%Z).
Proof.
  rewrite result_moveLeft, isMoved_moveLeft.
  induction m as [|row t [IHle IHpos]]; cbn [List.map existsb].
  - split; [reflexivity | discriminate].
  - rewrite !gridTotal_cons. fold (rowEmpty row). fold (rowEmpty (collapse row)).
    pose proof (rowEmpty_collapse row). pose proof (rowEmpty_nonneg row).
    pose proof (gridEmpty_nonneg (List.map collapse t)).
    split; [lia|].
    intros Hor. apply orb_true_iff in Hor as [Hrow|Hrest].
    + apply moved_row_has_room in Hrow. lia.
    + apply IHpos in Hrest. lia.
Qed.

Lemma moved_room R C (m : Map2048) (direction : Direction) :
  shape R C m ->
  let fwd := rotated R C m (rotateDegreeMap direction) in
  let out := rotated (rotatedRows R C (rotateDegreeMap direction))
                     (rotatedColumns R C (rotateDegreeMap direction))
                     (result (moveLeft fwd)) (revertDegreeMap direction) in
  length (emptyCells m) <= length (emptyCells out)
  /\ (isMoved (moveLeft fwd) = true -> emptyCells out <> []).
Proof.
  intros Hs fwd out.
  pose proof (shape_rotated (rotateDegreeMap direction) Hs) as Hfwd.
  fold fwd in Hfwd.
  destruct (moveLeft_room fwd) as [Hle Hpos].
  pose proof (gridTotal_rotated emptyWeight (revertDegreeMap direction)
                (shape_moveLeft Hfwd)) as Hback.
  pose proof (gridTotal_rotated emptyWeight (rotateDegreeMap direction) Hs) as Hforth.
  fold fwd in Hforth. fold out in Hback.
  pose proof (length_emptyCells m). pose proof (length_emptyCells out).
  split; [lia|].
  intros Hmoved Hnil. apply Hpos in Hmoved.
  rewrite Hnil in *. simpl in *. lia.
Qed.

(** A move never reduces the number of empty cells, and a move that changed
    the grid leaves at least one: the spawner called next finds room. *)
Theorem move_leaves_room
  (R C : nat) (m : Map2048) (direction : Direction) :
  shape R C m -> 0 < R -> 0 < C ->
  exists moved,
    moveMapIn2048Rule m direction = Ok moved
    /\ length (emptyCells m) <= length (emptyCells (result moved))
    /\ (isMoved moved = true -> emptyCells (result moved) <> []).
Proof.
  intros Hs HR HC. eexists. split; [apply (move_value direction Hs HR HC)|].
  cbv zeta. cbn [result isMoved]. exact (moved_room direction Hs).
Qed.

Lemma move_leaves_room_witness :
  exists moved,
    moveMapIn2048Rule [[Some 2; Some 2]; [Some 4; Some 8]]%Z right = Ok moved
    /\ length (emptyCells [[Some 2; Some 2]; [Some 4; Some 8]]%Z)
       <= length (emptyCells (result moved))
    /\ (isMoved moved = true -> emptyCells (result moved) <> []).
Proof.
  apply (@move_leaves_room 2 2); [|lia|lia].
  split; [reflexivity|].
  intros row [<-|[<-|[]]]; reflexivity.
Defined.


(* ================================================================= *)
(** * Further properties of validation and of the spawner *)

(** The validator raises on the grid without rows, where [map[0]] is
    [undefined]; on any other grid it answers whether every row has the
    length of the first one. *)
Theorem validate_outcome (row : Row) (t : Map2048) :
  validateMapIsNByM [] = Throw TypeError
  /\ (validateMapIsNByM (row :: t) = Ok true <-> rectangular (row :: t))
  /\ (validateMapIsNByM (row :: t) = Ok false <-> ~ rectangular (row :: t)).
Proof.
  split; [reflexivity|]. split.
  - apply validate_rectangular. discriminate.
  - apply validate_not_rectangular. discriminate.
Qed.



Lemma zsum_point n (f g : nat -> Z) (i : nat) :
  i < n -> (forall k, k < n -> k <> i -> f k = g k) ->
  zsum n f = (zsum n g - g i + f i)%Z.
Proof.
  induction n as [|n IH]; intros Hi H; [lia|].
  simpl. destruct (Nat.eq_dec i n) as [->|Hne].
  - rewrite (@zsum_ext n f g) by (intros k Hk; apply H; lia). lia.
  - rewrite IH by (try lia; intros; apply H; lia).
    rewrite (H n) by lia. lia.
Qed.

Lemma shape_placeTile R C (m : Map2048) (i j : nat) (v : Z) :
  shape R C m -> shape R C (placeTile m i j v).
Proof.
  intros [HR HC]. unfold placeTile. split; [now rewrite length_mapi|].
  intros row' Hin. apply In_nth_error in Hin as [n Hn].
  rewrite nth_error_mapi in Hn.
  destruct (nth_error m n) as [row|] eqn:Hrow; [|discriminate].
  simpl in Hn. inversion Hn. rewrite length_mapi.
  eapply HC, nth_error_In; eassumption.
Qed.

Lemma cell_in_shape R C (m : Map2048) (r c : nat) (x : option Z) :
  shape R C m -> cell m r c = Some x -> r < R /\ c < C.
Proof.
  intros [HR HC] H. unfold cell in H.
  destruct (nth_error m r) as [row|] eqn:Hrow; [|discriminate].
  assert (r < length m) by (apply nth_error_Some; congruence).
  assert (c < length row) by (apply nth_error_Some; congruence).
  rewrite (HC row) in * by (eapply nth_error_In; eassumption). lia.
Qed.

Lemma get_placeTile R C (m : Map2048) (i j : nat) (v : Z) (r c : nat) :
  shape R C m -> r < R -> c < C ->
  get (placeTile m i j v) r c
  = if (r =? i) && (c =? j) then Some v else get m r c.
Proof.
  intros Hs Hr Hc.
  pose proof (cell_placeTile m i j v r c) as H.
  rewrite (cell_get (shape_placeTile i j v Hs) Hr Hc), (cell_get Hs Hr Hc) in H.
  simpl in H. now inversion H.
Qed.

Lemma gridTotal_placeTile w R C (m : Map2048) (i j : nat) (v : Z) :
  shape R C m -> cell m i j = Some None ->
  gridTotal w (placeTile m i j v)
  = (gridTotal w m - w None + w (Some v))%Z.
Proof.
  intros Hs Hcell.
  destruct (cell_in_shape _ _ Hs Hcell) as [Hi Hj].
  assert (Hget : get m i j = None)
    by (rewrite (cell_get Hs Hi Hj) in Hcell; now inversion Hcell).
  rewrite (gridTotal_cells w (shape_placeTile i j v Hs)), (gridTotal_cells w Hs).
  rewrite (zsum_point _ (fun r => zsum C (fun c => w (get m r c))) Hi).
  - rewrite (zsum_point (fun c => w (get (placeTile m i j v) i c))
               (fun c => w (get m i c)) Hj).
    + cbv beta. rewrite (get_placeTile _ _ _ Hs Hi Hj), !Nat.eqb_refl, Hget.
      simpl. lia.
    + intros c Hc Hne. rewrite (get_placeTile _ _ _ Hs Hi Hc).
      apply Nat.eqb_neq in Hne. now rewrite Hne, andb_false_r.
  - intros r Hr Hne. apply zsum_ext. intros c Hc.
    rewrite (get_placeTile _ _ _ Hs Hr Hc).
    apply Nat.eqb_neq in Hne. now rewrite Hne.
Qed.

Lemma spawn_places (random : nat -> Q) (calls : nat) (m : Map2048) :
  emptyCells m <> [] -> (0 <= random calls)%Q -> (random calls < 1)%Q ->
  exists i j,
    cell m i j = Some None
    /\ addRandomTile random calls m
       = (Ok (placeTile m i j
                (if Qltb (random (S calls)) (9 # 10)%Q then 2%Z else 4%Z)),
          S (S calls)).
Proof.
  intros Hne Hlo Hhi. unfold addRandomTile.
  assert (Hpos : 0 < length (emptyCells m))
    by (destruct (emptyCells m); [congruence | simpl; lia]).
  replace (length (emptyCells m) =? 0) with false
    by (symmetry; apply Nat.eqb_neq; lia).
  pose proof (getRandomInt_range random calls Hlo Hhi Hpos) as Hk.
  unfold getRandomInt in *. cbn [fst] in Hk.
  set (k := Qfloor _) in *. unfold at_.
  replace (k <? 0)%Z with false by (symmetry; apply Z.ltb_ge; lia).
  destruct (nth_error (emptyCells m) (Z.to_nat k)) as [[i j]|] eqn:Hnth;
    [|apply nth_error_None in Hnth; lia].
  apply nth_error_In, in_emptyCells in Hnth.
  exists i, j. split; [exact Hnth | reflexivity].
Qed.

Lemma placeTile_effect R C (m : Map2048) (i j : nat) (v : Z) :
  shape R C m -> cell m i j = Some None ->
  length (emptyCells (placeTile m i j v)) + 1 = length (emptyCells m)
  /\ gridSum (placeTile m i j v) = (gridSum m + v)%Z.
Proof.
  intros Hs Hcell.
  pose proof (@gridTotal_placeTile emptyWeight _ _ m i j v Hs Hcell) as He.
  pose proof (@gridTotal_placeTile cellValue _ _ m i j v Hs Hcell) as Hv.
  rewrite <- !length_emptyCells in He. rewrite <- !gridSum_total in Hv.
  simpl in He, Hv. split; lia.
Qed.



(** ** The list of empty cells *)

(** Row-major order on coordinates. *)
Definition rowMajorLt (a b : nat * nat) : Prop :=
  fst a < fst b \/ (fst a = fst b /\ snd a < snd b).

Lemma entriesFrom_index {A} (l : list A) : forall k n a,
  In (n, a) (entriesFrom k l) -> k <= n.
Proof.
  induction l as [|x t IH]; intros k n a Hin; [destruct Hin|].
  destruct Hin as [Heq|Hin]; [inversion Heq; lia|].
  apply IH in Hin. lia.
Qed.

Lemma StronglySorted_app {A} (R : A -> A -> Prop) (l1 l2 : list A) :
  StronglySorted R l1 -> StronglySorted R l2 ->
  (forall a b, In a l1 -> In b l2 -> R a b) ->
  StronglySorted R (l1 ++ l2).
Proof.
  induction 1 as [|x t Ht IH Hx]; intros H2 Hcross; [exact H2|].
  simpl. constructor.
  - apply IH; [exact H2|]. intros a b Ha Hb. apply Hcross; [now right | exact Hb].
  - apply Forall_app. split; [exact Hx|].
    apply Forall_forall. intros b Hb. apply Hcross; [now left | exact Hb].
Qed.

Lemma StronglySorted_NoDup {A} (R : A -> A -> Prop) (l : list A) :
  (forall a, ~ R a a) -> StronglySorted R l -> NoDup l.
Proof.
  intros Hirr. induction 1 as [|x t Ht IH Hx]; constructor; [|exact IH].
  intros Hin. rewrite Forall_forall in Hx. exact (Hirr x (Hx x Hin)).
Qed.

Lemma row_empties_sorted (i : nat) (row : Row) : forall k,
  let found := flat_map (fun q : nat * option Z =>
                 match snd q with
                 | None => [(i, fst q)]
                 | Some _ => []
                 end) (entriesFrom k row) in
  StronglySorted rowMajorLt found
  /\ forall p, In p found -> fst p = i /\ k <= snd p.
Proof.
  induction row as [|[v|] t IH]; intros k; cbn [entriesFrom flat_map snd fst app].
  - split; [constructor | intros p []].
  - destruct (IH (S k)) as [Hs Hb]. split; [exact Hs|].
    intros p Hp. destruct (Hb p Hp). split; [assumption | lia].
  - destruct (IH (S k)) as [Hs Hb]. split.
    + constructor; [exact Hs|]. apply Forall_forall. intros p Hp.
      destruct (Hb p Hp) as [Hf Hsnd]. right. simpl. split; [now symmetry | lia].
    + intros p [<-|Hp]; [simpl; split; [reflexivity | lia]|].
      destruct (Hb p Hp). split; [assumption | lia].
Qed.

Lemma empties_sorted (m : Map2048) : forall k,
  let found := flat_map (fun p : nat * list (option Z) =>
                 flat_map (fun q : nat * option Z =>
                   match snd q with
                   | None => [(fst p, fst q)]
                   | Some _ => []
                   end) (entries (snd p))) (entriesFrom k m) in
  StronglySorted rowMajorLt found /\ forall p, In p found -> k <= fst p.
Proof.
  induction m as [|row t IH]; intros k; cbn [entriesFrom flat_map snd fst].
  - split; [constructor | intros p []].
  - destruct (IH (S k)) as [Hs Hb].
    destruct (row_empties_sorted k row 0) as [Hrs Hrb]. unfold entries. split.
    + apply StronglySorted_app; [exact Hrs | exact Hs |].
      intros a b Ha Hb'. left. destruct (Hrb a Ha) as [-> _].
      specialize (Hb b Hb'). lia.
    + intros p Hp. apply in_app_or in Hp as [Hp|Hp].
      * destruct (Hrb p Hp). lia.
      * specialize (Hb p Hp). lia.
Qed.

(** The spawner's list of candidates holds exactly the coordinates of the
    empty cells, in row-major order and each once. *)
Theorem emptyCells_exact (m : Map2048) :
  StronglySorted rowMajorLt (emptyCells m)
  /\ NoDup (emptyCells m)
  /\ forall i j, In (i, j) (emptyCells m) <-> cell m i j = Some None.
Proof.
  assert (Hs : StronglySorted rowMajorLt (emptyCells m))
    by apply (empties_sorted m 0).
  split; [exact Hs|]. split; [|intros i j; apply in_emptyCells].
  apply (StronglySorted_NoDup (R := rowMajorLt)); [|exact Hs].
  intros a [H|[_ H]]; lia.
Qed.


(* ================================================================= *)
(** * Further properties of the handlers *)

(** The grid and every snapshot of the history are [R] by [C]. *)
Definition wellFormed (R C : nat) (st : App.State) : Prop :=
  shape R C (App.map st) /\ Forall (shape R C) (App.undoHistory st).

Lemma handleUndo_cases (st : App.State) :
  (App.undoHistory st = [] /\ App.handleUndo st = st)
  \/ exists h x,
       App.undoHistory st = h ++ [x]
       /\ App.handleUndo st
          = {| App.map := x; App.undoHistory := h;
               App.randomCalls := App.randomCalls st |}.
Proof.
  destruct st as [m h calls]. simpl.
  induction h as [|y t _] using rev_ind; [left; now split|].
  right. exists t, y. split; [reflexivity | apply handleUndo_pushed].
Qed.

(** Undo changes the state exactly when the history is not empty, and then
    it pops the most recent snapshot into the grid: the history loses its
    last entry and nothing else, and no random number is drawn. *)
Theorem undo_pops_last (st : App.State) :
  (App.handleUndo st = st <-> App.undoHistory st = [])
  /\ forall h x,
       App.undoHistory st = h ++ [x] ->
       App.handleUndo st
       = {| App.map := x; App.undoHistory := h;
            App.randomCalls := App.randomCalls st |}.
Proof.
  destruct (handleUndo_cases st) as [[Hnil Hsame]|(h & x & Hh & Hundo)].
  - split; [now split|].
    intros h x Hh. rewrite Hnil in Hh. now destruct h.
  - split.
    + split; intros H.
      * rewrite H in Hundo. rewrite Hundo in Hh. simpl in Hh.
        exfalso. apply (f_equal (@length _)) in Hh.
        rewrite length_app in Hh. simpl in Hh. lia.
      * rewrite H in Hh. now destruct h.
    + intros h' x' Hh'. rewrite Hh in Hh'.
      apply app_inj_tail in Hh' as [-> ->]. exact Hundo.
Qed.

Lemma undo_pops_last_witness :
  App.handleUndo
    {| App.map := [[Some 4; None]]%Z;
       App.undoHistory := [[[Some 2; Some 2]]%Z] ++ [[[None; Some 4]]%Z];
       App.randomCalls := 6 |}
  = {| App.map := [[None; Some 4]]%Z;
       App.undoHistory := [[[Some 2; Some 2]]%Z];
       App.randomCalls := 6 |}.
Proof.
  apply (proj2 (undo_pops_last
                  {| App.map := [[Some 4; None]]%Z;
                     App.undoHistory :=
                       [[[Some 2; Some 2]]%Z] ++ [[[None; Some 4]]%Z];
                     App.randomCalls := 6 |})).
  reflexivity.
Defined.

Lemma undo_through (h : list Map2048) : forall m calls first,
  Nat.iter (length (first :: h)) App.handleUndo
    {| App.map := m; App.undoHistory := first :: h; App.randomCalls := calls |}
  = {| App.map := first; App.undoHistory := []; App.randomCalls := calls |}.
Proof.
  induction h as [|y t IH] using rev_ind; intros m calls first.
  - reflexivity.
  - change (first :: t ++ [y]) with ((first :: t) ++ [y]).
    rewrite length_app, Nat.add_comm. cbn [length Nat.add].
    rewrite Nat.iter_succ_r, handleUndo_pushed. apply IH.
Qed.

(** Undoing as many times as the history has snapshots brings back the
    oldest snapshot and empties the history. *)
Theorem undo_to_the_start (st : App.State) (first : Map2048) (later : list Map2048) :
  App.undoHistory st = first :: later ->
  Nat.iter (length (App.undoHistory st)) App.handleUndo st
  = {| App.map := first; App.undoHistory := [];
       App.randomCalls := App.randomCalls st |}.
Proof.
  intros Hh. destruct st as [m h calls]. simpl in *. subst h.
  apply undo_through.
Qed.

Lemma undo_to_the_start_witness :
  Nat.iter 2 App.handleUndo
    {| App.map := [[Some 8; None]]%Z;
       App.undoHistory := [[[Some 2; Some 2]]%Z; [[Some 4; Some 4]]%Z];
       App.randomCalls := 4 |}
  = {| App.map := [[Some 2; Some 2]]%Z; App.undoHistory := [];
       App.randomCalls := 4 |}.
Proof.
  apply (@undo_to_the_start
           {| App.map := [[Some 8; None]]%Z;
              App.undoHistory := [[[Some 2; Some 2]]%Z; [[Some 4; Some 4]]%Z];
              App.randomCalls := 4 |}
           [[Some 2; Some 2]]%Z [[[Some 4; Some 4]]%Z]).
  reflexivity.
Defined.

Section MoreHandlerFacts.

Variable random : nat -> Q.

Lemma handleKey_moved_state R C st direction moved :
  shape R C (App.map st) -> 0 < R -> 0 < C ->
  App.isGameOver st = false ->
  moveMapIn2048Rule (App.map st) direction = Ok moved ->
  isMoved moved = true ->
  (0 <= random (App.randomCalls st))%Q -> (random (App.randomCalls st) < 1)%Q ->
  exists i j,
    cell (result moved) i j = Some None
    /\ shape R C (result moved)
    /\ gridSum (result moved) = gridSum (App.map st)
    /\ App.handleKey random st (App.keyOf direction)
       = ({| App.map :=
               placeTile (result moved) i j
                 (if Qltb (random (S (App.randomCalls st))) (9 # 10)%Q
                  then 2%Z else 4%Z);
             App.undoHistory := App.undoHistory st ++ [App.map st];
             App.randomCalls := S (S (App.randomCalls st)) |},
          Ok tt).
Proof.
  intros Hs HR HC Hover Hmv Hflag Hlo Hhi.
  pose proof (move_value direction Hs HR HC) as Hval. cbv zeta in Hval.
  rewrite Hmv in Hval. injection Hval as Hmoved.
  assert (Hshape : shape R C (result moved)).
  { destruct (move_total direction Hs HR HC) as (back & Hb & Hsb).
    rewrite Hmv in Hb. inversion Hb. exact Hsb. }
  assert (Hroom : emptyCells (result moved) <> []).
  { destruct (moved_room direction Hs) as [_ Hr]. rewrite Hmoved.
    cbn [result]. apply Hr. rewrite Hmoved in Hflag. exact Hflag. }
  assert (Hsum : gridSum (result moved) = gridSum (App.map st)).
  { rewrite Hmoved. cbn [result]. now apply moved_sum. }
  destruct (@spawn_places random (App.randomCalls st) (result moved) Hroom Hlo Hhi)
    as (i & j & Hcell & Hadd).
  exists i, j. split; [exact Hcell|]. split; [exact Hshape|]. split; [exact Hsum|].
  unfold App.handleKey. rewrite dirMap_keyOf, Hover, Hmv, Hflag, Hadd.
  reflexivity.
Qed.

End MoreHandlerFacts.

Lemma keyOf_dirMap (key : App.Key) (direction : Direction) :
  App.dirMap key = Some direction -> key = App.keyOf direction.
Proof. destruct key; intros H; inversion H; reflexivity. Qed.

(** A key press that moves tiles, on a rectangular grid that is not over:
    the handler returns normally, pushes the grid it was pressed on as the
    last snapshot, draws exactly twice, and the new grid is the moved grid
    with one more tile: same shape, one empty cell fewer than the moved grid,
    and a total equal to the old total plus the new tile (2 when the second
    draw is below 0.9, else 4). *)
Theorem changed_move_updates_state
  (random : nat -> Q) (R C : nat) (st : App.State)
  (direction : Direction) (moved : MoveResult) :
  shape R C (App.map st) -> 0 < R -> 0 < C ->
  App.isGameOver st = false ->
  moveMapIn2048Rule (App.map st) direction = Ok moved ->
  isMoved moved = true ->
  (0 <= random (App.randomCalls st))%Q -> (random (App.randomCalls st) < 1)%Q ->
  exists newMap,
    App.handleKey random st (App.keyOf direction)
    = ({| App.map := newMap;
          App.undoHistory := App.undoHistory st ++ [App.map st];
          App.randomCalls := S (S (App.randomCalls st)) |}, Ok tt)
    /\ shape R C newMap
    /\ length (emptyCells newMap) + 1 = length (emptyCells (result moved))
    /\ gridSum newMap
       = (gridSum (App.map st)
          + (if Qltb (random (S (App.randomCalls st))) (9 # 10)%Q
             then 2 else 4))%Z.
Proof.
  intros Hs HR HC Hover Hmv Hflag Hlo Hhi.
  destruct (@handleKey_moved_state random R C st direction moved
              Hs HR HC Hover Hmv Hflag Hlo Hhi)
    as (i & j & Hcell & Hshape & Hsum & Hkey).
  eexists. split; [exact Hkey|].
  split; [now apply shape_placeTile|].
  destruct (@placeTile_effect R C (result moved) i j
              (if Qltb (random (S (App.randomCalls st))) (9 # 10)%Q
               then 2%Z else 4%Z) Hshape Hcell) as [Hcount Htotal].
  split; [exact Hcount|]. now rewrite Htotal, Hsum.
Qed.

Lemma changed_move_updates_state_witness :
  let st := {| App.map := [[Some 2; Some 2]; [None; None]]%Z;
               App.undoHistory := [];
               App.randomCalls := 0 |} in
  exists newMap,
    App.handleKey (fun _ => (1 # 2)%Q) st (App.keyOf left)
    = ({| App.map := newMap;
          App.undoHistory := App.undoHistory st ++ [App.map st];
          App.randomCalls := S (S (App.randomCalls st)) |}, Ok tt)
    /\ shape 2 2 newMap
    /\ length (emptyCells newMap) + 1
       = length (emptyCells [[Some 4; None]; [None; None]]%Z)
    /\ gridSum newMap
       = (gridSum (App.map st)
          + (if Qltb (1 # 2)%Q (9 # 10)%Q then 2 else 4))%Z.
Proof.
  intros st.
  apply (@changed_move_updates_state (fun _ => (1 # 2)%Q) 2 2 st left
           {| result := [[Some 4; None]; [None; None]]%Z; isMoved := true |});
    try reflexivity; try lia; try discriminate.
  split; [reflexivity|].
  intros row [<-|[<-|[]]]; reflexivity.
Defined.

Lemma handleKey_well_formed
  (random : nat -> Q) (R C : nat) (st : App.State) (key : App.Key) :
  wellFormed R C st -> 0 < R -> 0 < C ->
  (0 <= random (App.randomCalls st))%Q -> (random (App.randomCalls st) < 1)%Q ->
  exists st', App.handleKey random st key = (st', Ok tt) /\ wellFormed R C st'.
Proof.
  intros [Hs Hh] HR HC Hlo Hhi.
  destruct (App.dirMap key) as [direction|] eqn:Hk.
  - apply keyOf_dirMap in Hk. subst key.
    destruct (App.isGameOver st) eqn:Hover.
    + exists st. split; [now apply handleKey_over | now split].
    + destruct (move_total direction Hs HR HC) as (back & Hmv & _).
      set (moved := {| result := back; isMoved := _ |}) in Hmv.
      destruct (isMoved moved) eqn:Hflag.
      * destruct (@handleKey_moved_state random R C st direction moved
                    Hs HR HC Hover Hmv Hflag Hlo Hhi)
          as (i & j & _ & Hshape & _ & Hkey).
        eexists. split; [exact Hkey|]. split; simpl.
        -- now apply shape_placeTile.
        -- apply Forall_app. split; [exact Hh | now constructor].
      * exists st. split; [|now split].
        eapply handleKey_blocked; eauto using dirMap_keyOf.
  - exists st. split; [|now split]. unfold App.handleKey. now rewrite Hk.
Qed.

Lemma handleUndo_well_formed (R C : nat) (st : App.State) :
  wellFormed R C st -> wellFormed R C (App.handleUndo st).
Proof.
  intros [Hs Hh].
  destruct (handleUndo_cases st) as [[_ ->]|(h & x & Hhx & ->)]; [now split|].
  rewrite Hhx in Hh. apply Forall_app in Hh as [Hprefix Hlast].
  split; simpl; [now inversion Hlast | exact Hprefix].
Qed.

(** Both handlers keep the state well formed.  From an [R] by [C] grid
    with [R, C >= 1] and snapshots of the same shape, a key press, whatever
    the key, returns without an exception and leaves such a state, and so
    does undo. *)
Theorem handlers_keep_well_formed
  (random : nat -> Q) (R C : nat) (st : App.State) (key : App.Key) :
  wellFormed R C st -> 0 < R -> 0 < C ->
  (0 <= random (App.randomCalls st))%Q -> (random (App.randomCalls st) < 1)%Q ->
  (exists st', App.handleKey random st key = (st', Ok tt) /\ wellFormed R C st')
  /\ wellFormed R C (App.handleUndo st).
Proof.
  intros Hwf HR HC Hlo Hhi. split.
  - now apply handleKey_well_formed.
  - now apply handleUndo_well_formed.
Qed.

Lemma handlers_keep_well_formed_witness :
  let st := {| App.map := [[Some 2; Some 2]; [None; None]]%Z;
               App.undoHistory := [[[Some 2; None]; [None; Some 2]]%Z];
               App.randomCalls := 2 |} in
  (exists st', App.handleKey (fun _ => (1 # 2)%Q) st App.ArrowDown = (st', Ok tt)
               /\ wellFormed 2 2 st')
  /\ wellFormed 2 2 (App.handleUndo st).
Proof.
  intros st. apply handlers_keep_well_formed; try lia;
    [|discriminate|reflexivity].
  split; simpl.
  - split; [reflexivity|]. intros row [<-|[<-|[]]]; reflexivity.
  - constructor; [|constructor].
    split; [reflexivity|]. intros row [<-|[<-|[]]]; reflexivity.
Defined.




(** ** Sequences of events *)

(** What the page lets the user do: press a key, or click the undo button
    (whose [onClick] is [handleUndo]). *)
Inductive Event : Type :=
| KeyDown (key : App.Key)
| ClickUndo.

Section Runs.

Variable random : nat -> Q.

Definition dispatch (st : App.State) (event : Event) : App.State * outcome unit :=
  match event with
  | KeyDown key => App.handleKey random st key
  | ClickUndo => (App.handleUndo st, Ok tt)
  end.

(** Events are handled one after the other, each on the state the previous
    one left; the result is the last state and how each handler ended. *)
Fixpoint run (st : App.State) (events : list Event)
  : App.State * list (outcome unit) :=
  match events with
  | [] => (st, [])
  | event :: later =>
      let (st1, ended) := dispatch st event in
      let (st2, endings) := run st1 later in
      (st2, ended :: endings)
  end.

Hypothesis random_range : forall k, (0 <= random k)%Q /\ (random k < 1)%Q.

Lemma dispatch_well_formed R C st event :
  wellFormed R C st -> 0 < R -> 0 < C ->
  exists st', dispatch st event = (st', Ok tt) /\ wellFormed R C st'.
Proof.
  intros Hwf HR HC.
  destruct (random_range (App.randomCalls st)) as [Hlo Hhi].
  destruct event as [key|]; simpl.
  - now apply handleKey_well_formed.
  - eexists. split; [reflexivity | now apply handleUndo_well_formed].
Qed.

Lemma run_well_formed R C (events : list Event) : forall st,
  wellFormed R C st -> 0 < R -> 0 < C ->
  wellFormed R C (fst (run st events))
  /\ Forall (fun ended => ended = Ok tt) (snd (run st events)).
Proof.
  induction events as [|event later IH]; intros st Hwf HR HC.
  - split; [exact Hwf | constructor].
  - cbn [run].
    destruct (dispatch_well_formed event Hwf HR HC) as (st1 & Hd & Hwf1).
    rewrite Hd. destruct (IH st1 Hwf1 HR HC) as [Hfin Hall].
    destruct (run st1 later) as [st2 endings]. simpl in *.
    split; [exact Hfin | now constructor].
Qed.

End Runs.

(** No handler ever raises in a game.  From the state of the first render,
    and with every draw in [0, 1), any sequence of key presses and undo
    clicks is handled without an exception, the "Map is not N by M" error
    included, and the grid and all snapshots stay 4 by 4. *)
Theorem game_never_raises
  (random : nat -> Q) (calls : nat) (events : list Event) :
  (forall k, (0 <= random k)%Q /\ (random k < 1)%Q) ->
  exists st,
    App.initialState random calls = Ok st
    /\ wellFormed 4 4 (fst (run random st events))
    /\ Forall (fun ended => ended = Ok tt) (snd (run random st events)).
Proof.
  intros Hrange.
  assert (Hs0 : shape 4 4 defaultMap).
  { split; [reflexivity|]. intros row [<-|[<-|[<-|[<-|[]]]]]; reflexivity. }
  destruct (Hrange calls) as [Hlo1 Hhi1].
  destruct (Hrange (S (S calls))) as [Hlo2 Hhi2].
  destruct (@spawn_places random calls defaultMap) as (i & j & Hc1 & Hadd1);
    [discriminate | assumption | assumption |].
  set (v1 := if Qltb (random (S calls)) (9 # 10)%Q then 2%Z else 4%Z) in *.
  assert (Hs1 : shape 4 4 (placeTile defaultMap i j v1)) by now apply shape_placeTile.
  destruct (@placeTile_effect 4 4 defaultMap i j v1 Hs0 Hc1) as [Hn1 _].
  destruct (@spawn_places random (S (S calls)) (placeTile defaultMap i j v1))
    as (i' & j' & Hc2 & Hadd2); [|assumption|assumption|].
  { intros Hnil. rewrite Hnil in Hn1. simpl in Hn1. lia. }
  eexists. split.
  { unfold App.initialState, App.initialMap.
    change (List.map (fun row => row) defaultMap) with defaultMap.
    rewrite Hadd1, Hadd2. reflexivity. }
  apply run_well_formed; [exact Hrange | | lia | lia].
  split; simpl; [now apply shape_placeTile | constructor].
Qed.

Lemma game_never_raises_witness :
  exists st,
    App.initialState (fun _ => (1 # 2)%Q) 0 = Ok st
    /\ wellFormed 4 4
         (fst (run (fun _ => (1 # 2)%Q) st
                 [KeyDown App.ArrowLeft; KeyDown App.ArrowUp; ClickUndo]))
    /\ Forall (fun ended => ended = Ok tt)
         (snd (run (fun _ => (1 # 2)%Q) st
                 [KeyDown App.ArrowLeft; KeyDown App.ArrowUp; ClickUndo])).
Proof.
  apply game_never_raises. intros k. split; [discriminate | reflexivity].
Defined.

(** ** Grids without cells *)

Lemma tabulate_no_columns R f : tabulate R 0 f = repeat [] R.
Proof.
  unfold tabulate. simpl. generalize 0 as k.
  induction R as [|R IH]; intros k; [reflexivity|].
  simpl. now rewrite IH.
Qed.

Lemma shape_no_columns R : shape R 0 (repeat [] R).
Proof.
  split; [apply repeat_length|].
  intros row Hin. apply repeat_spec in Hin. now subst.
Qed.

Lemma moveLeft_no_columns R :
  moveLeft (repeat [] R) = {| result := repeat [] R; isMoved := false |}.
Proof.
  unfold moveLeft. f_equal.
  - induction R as [|R IH]; [reflexivity|].
    cbn [repeat List.map]. now rewrite IH.
  - induction R as [|R IH]; [reflexivity|].
    cbn [repeat List.map existsb]. now rewrite IH.
Qed.

(** On a grid that has rows but no column, a horizontal move returns the
    grid with the flag cleared, while a vertical move raises a [TypeError]:
    the forward turn leaves no row, and the turn back reads the first row. *)
Theorem move_without_cells (n : nat) (direction : Direction) :
  moveMapIn2048Rule (repeat [] (S n)) direction
  = match direction with
    | left | right =>
        Ok {| result := repeat [] (S n); isMoved := false |}
    | up | down => Throw TypeError
    end.
Proof.
  assert (Hs : shape (S n) 0 (repeat [] (S n))) by apply shape_no_columns.
  unfold moveMapIn2048Rule.
  assert (Hv : validateMapIsNByM (repeat [] (S n)) = Ok true)
    by (apply validate_shape; exists (S n), 0; split; [lia | exact Hs]).
  rewrite Hv. cbv beta iota zeta delta [bind negb].
  rewrite (rotate_total (rotateDegreeMap direction) Hs) by lia.
  cbv beta iota zeta delta [bind].
  destruct direction; cbn [rotateDegreeMap revertDegreeMap rotated].
  - unfold tabulate at 1. cbn [seq List.map]. reflexivity.
  - rewrite moveLeft_no_columns. cbn [result isMoved].
    now rewrite (rotate_total D0 Hs) by lia.
  - rewrite tabulate_no_columns, moveLeft_no_columns. cbn [result isMoved].
    rewrite (rotate_total D180 Hs) by lia. cbn [rotated].
    now rewrite tabulate_no_columns.
  - unfold tabulate at 1. cbn [seq List.map]. reflexivity.
Qed.
